(** * QuerySubscription: the query-result notification coordinator

    A shallow embedding of [src/react/cache/QuerySubscription.ts].

    The class keeps the latest result snapshot of one running query, filters
    and normalises what the engine delivers, fans results out to a set of
    listeners and exposes one promise.  Its methods mutate the coordinator's
    fields and objects they are handed, so the embedding threads an explicit
    [World]: a heap of snapshot objects addressed by reference, a promise
    store, the engine's subscriber registries, the fields of [this], and a
    trace of the calls made to callbacks owned by the consumer.

    Callbacks owned by the consumer (listeners, the dispose hook, observers
    of other consumers) are opaque: a call to one is recorded in the trace,
    and the callback does not call back into the coordinator.  A listener
    may raise an exception instead of returning: whether it does, given the
    snapshot it is called with and the heap, is a parameter of the
    development ([raises]). *)

From stdpp Require Import base option list gmap strings fin_maps.
From Stdlib Require Import ZArith.

Local Open Scope string_scope.
Local Open Scope list_scope.

(** ** Values and snapshot objects *)

(** Payload values carried in the properties of a snapshot.  Nested payloads
    are immutable by convention and so are held by value; only the snapshot
    objects themselves live in the heap. *)
#[warnings="-register-all"] Inductive value : Type :=
  | VUndefined
  | VNull
  | VBool (b : bool)
  | VNumber (n : Z)
  | VString (s : string)
  | VArray (items : list value)
  | VObject (props : list (string * value)).

(** JavaScript truthiness, as tested by [this.result.data && ...]. *)
Definition truthy (v : value) : bool :=
  match v with
  | VUndefined | VNull => false
  | VBool b => b
  | VNumber n => negb (n =? 0)%Z
  | VString s => negb (String.eqb s "")
  | VArray _ | VObject _ => true
  end.

(** [v === void 0]. *)
Definition is_undefined (v : value) : bool :=
  match v with VUndefined => true | _ => false end.

(** Deep comparison of two payload values. *)
Fixpoint value_eqb (a b : value) {struct a} : bool :=
  match a, b with
  | VUndefined, VUndefined => true
  | VNull, VNull => true
  | VBool x, VBool y => Bool.eqb x y
  | VNumber x, VNumber y => (x =? y)%Z
  | VString x, VString y => String.eqb x y
  | VArray xs, VArray ys =>
      (fix items xs ys {struct xs} :=
         match xs, ys with
         | [], [] => true
         | x :: xs', y :: ys' => value_eqb x y && items xs' ys'
         | _, _ => false
         end) xs ys
  | VObject ps, VObject qs =>
      (fix props ps qs {struct ps} :=
         match ps, qs with
         | [], [] => true
         | (k, x) :: ps', (k', y) :: qs' =>
             String.eqb k k' && value_eqb x y && props ps' qs'
         | _, _ => false
         end) ps qs
  | _, _ => false
  end.

(** A snapshot object ([ApolloQueryResult]): its own properties by name. *)
Abbreviation obj := (gmap string value).

(** Reading a property: an absent property reads as [undefined]. *)
Definition get (k : string) (o : obj) : value := default VUndefined (o !! k).

(** ** References, promises and callbacks *)

Abbreviation loc := positive.
Abbreviation pid := positive.
Abbreviation subid := nat.

(** A callback is known by its identity. *)
Abbreviation Listener := nat.
Abbreviation Hook := nat.

Inductive pstate : Type :=
  | Pending
  | Fulfilled (r : loc)
  | Rejected (e : value).

(** Dereferencing: spreading or reading [undefined] yields no property. *)
Definition deref (h : gmap loc obj) (l : loc) : obj := default ∅ (h !! l).

(** ** Imported collaborators

    The functions and constants the class imports from outside this file.
    Every statement below holds for whatever they compute. *)
Class Imports : Type := {
  (** [equal] of [@wry/equality]: deep structural comparison of two
      snapshots. *)
  equal : obj → obj → bool;
  (** [isNetworkRequestSettled] of [core/networkStatus]. *)
  isNetworkRequestSettled : value → bool;
  (** [NetworkStatus.error]. *)
  NetworkStatus_error : value;
  (** [hasDirectives(names, document)] of [utilities]; a document is known
      here by the directive names it uses. *)
  hasDirectives : list string → list string → bool;
}.

(** ** Callbacks of the consumer

    A listener is a function supplied by the consumer; [listen] accepts any.
    What matters to the class is whether a call returns or raises. *)
Class Callbacks : Type := {
  (** [raises l r h]: calling listener [l] with snapshot [r], the heap being
      [h], ends in an exception. *)
  raises : Listener → loc → gmap loc obj → bool;
}.

(** ** The world *)

(** Calls that leave the coordinator, in the order they are made. *)
Inductive event : Type :=
  | ListenerCalled (l : Listener) (r : loc)
  | DisposeHookCalled (h : Hook)
  | ForeignNext (n : nat) (r : loc)
  | ForeignError (n : nat) (e : value)
  | EngineRefetch (variables : value)
  | EngineFetchMore (options : value).

(** The observers registered with the engine, as closures in
    defunctionalised form.  [observable.subscribe] receives the
    coordinator's pair of handlers; other consumers of the same engine
    register observers of their own. *)
Inductive query_observer : Type :=
  | CoordinatorObserver
  | ForeignObserver (n : nat).

#[global] Instance query_observer_eq_dec : EqDecision query_observer.
Proof. solve_decision. Defined.

(** The observers registered with the delivery stream: the one-shot
    observer that [wrapWithCustomPromise] builds around promise [p], and the
    observers of everybody else. *)
Inductive stream_observer : Type :=
  | FirstChunkObserver (p : pid)
  | StreamObserver (n : nat).

(** Modelled from the spec: the in-flight delivery stream ([Concast], not
    under src/): "a multicast, repeatedly-subscribable stream abstraction
    with one canonical settle-once promise plus a subscribe method for
    multiple independent observers".  Subscription handles are numbered and
    never reused. *)
Record Concast : Type := mkConcast {
  concast_promise : pid;
  concast_observers : list (subid * stream_observer);
  concast_next_id : subid;
}.

(** Modelled from the spec: the query engine ([ObservableQuery], not under
    src/), as far as the coordinator consumes it (§6): the query document,
    the snapshot [getCurrentResult()] returns, the observers registered by
    [subscribe], and the delivery-stream handle. *)
Record ObservableQuery : Type := mkObservableQuery {
  query : list string;
  currentResult : loc;
  observers : list (subid * query_observer);
  next_id : subid;
  concast : option Concast;
}.

(** The fields of a [QuerySubscription]; [observable] is the engine of the
    world.  [listeners] is the [Set] in insertion order; [onDispose] is
    [None] while the no-op method of the class is in place. *)
Record QuerySubscription : Type := mkQuerySubscription {
  result : loc;
  promise : pid;
  subscription : subid;
  listeners : list Listener;
  onDispose : option Hook;
}.

Record World : Type := mkWorld {
  heap : gmap loc obj;
  promises : gmap pid pstate;
  observable : ObservableQuery;
  this : QuerySubscription;
  trace : list event;
}.

(** What exists before the coordinator is constructed. *)
Record Env : Type := mkEnv {
  env_heap : gmap loc obj;
  env_promises : gmap pid pstate;
  env_observable : ObservableQuery;
  env_trace : list event;
}.

(** [interface Options]. *)
Record Options : Type := mkOptions {
  options_onDispose : option Hook;
}.

(** Field updates. *)
Definition set_heap (h : gmap loc obj) (w : World) : World :=
  mkWorld h (promises w) (observable w) (this w) (trace w).
Definition set_promises (ps : gmap pid pstate) (w : World) : World :=
  mkWorld (heap w) ps (observable w) (this w) (trace w).
Definition set_observable (o : ObservableQuery) (w : World) : World :=
  mkWorld (heap w) (promises w) o (this w) (trace w).
Definition set_this (t : QuerySubscription) (w : World) : World :=
  mkWorld (heap w) (promises w) (observable w) t (trace w).
Definition log (ev : event) (w : World) : World :=
  mkWorld (heap w) (promises w) (observable w) (this w) (trace w ++ [ev]).

Definition set_result (r : loc) (w : World) : World :=
  set_this (mkQuerySubscription r (promise (this w)) (subscription (this w))
              (listeners (this w)) (onDispose (this w))) w.
Definition set_promise (p : pid) (w : World) : World :=
  set_this (mkQuerySubscription (result (this w)) p (subscription (this w))
              (listeners (this w)) (onDispose (this w))) w.
Definition set_listeners (ls : list Listener) (w : World) : World :=
  set_this (mkQuerySubscription (result (this w)) (promise (this w))
              (subscription (this w)) ls (onDispose (this w))) w.

(** ** The engine and the language runtime *)

(** A JavaScript promise settles once: [resolve] and [reject] act on a
    pending promise only. *)
Definition new_promise (ps : gmap pid pstate) : pid * gmap pid pstate :=
  let p := fresh (dom ps) in (p, <[p := Pending]> ps).

Definition resolve (p : pid) (r : loc) (ps : gmap pid pstate) : gmap pid pstate :=
  match ps !! p with
  | Some Pending => <[p := Fulfilled r]> ps
  | _ => ps
  end.

Definition reject (p : pid) (e : value) (ps : gmap pid pstate) : gmap pid pstate :=
  match ps !! p with
  | Some Pending => <[p := Rejected e]> ps
  | _ => ps
  end.

(** [new Set().add(x)] and [.delete(x)] on a set kept in insertion order. *)
Definition Set_add (x : Listener) (s : list Listener) : list Listener :=
  if decide (x ∈ s) then s else s ++ [x].

Definition Set_delete (x : Listener) (s : list Listener) : list Listener :=
  filter (λ y, y ≠ x) s.

(** Modelled from the spec: [subscribe({ next, error }) -> { unsubscribe() }]
    of a registry of observers (§6); releasing a handle a second time "is a
    no-op per underlying engine semantics" (§3). *)
Definition registry_unsubscribe {O : Type} (s : subid)
    (reg : list (subid * O)) : list (subid * O) :=
  filter (λ so, so.1 ≠ s) reg.

(** Modelled from the spec: [concast.subscribe(observer)]. *)
Definition concast_subscribe (o : stream_observer) (c : Concast)
    : subid * Concast :=
  let s := concast_next_id c in
  (s, mkConcast (concast_promise c) (concast_observers c ++ [(s, o)]) (S s)).

(** Modelled from the spec: [unsubscribe()] of a handle [concast.subscribe]
    returned. *)
Definition concast_unsubscribe (s : subid) (c : Concast) : Concast :=
  mkConcast (concast_promise c) (registry_unsubscribe s (concast_observers c))
    (concast_next_id c).

(** Modelled from the spec: [observable.subscribe(observer)].  Subscribing
    "will ensure a concast is set on the observable" (source comment in the
    constructor; §4.1 step 3): when the engine has no delivery stream yet,
    one is started, with a pending promise of its own. *)
Definition observable_subscribe (o : query_observer)
    (ps : gmap pid pstate) (oq : ObservableQuery)
    : subid * gmap pid pstate * ObservableQuery :=
  let s := next_id oq in
  let '(ps', c) :=
    match concast oq with
    | Some c => (ps, c)
    | None => let '(p, ps') := new_promise ps in (ps', mkConcast p [] 0)
    end in
  (s, ps',
   mkObservableQuery (query oq) (currentResult oq) (observers oq ++ [(s, o)])
     (S s) (Some c)).

(** Modelled from the spec: [unsubscribe()] of a handle
    [observable.subscribe] returned. *)
Definition observable_unsubscribe (s : subid) (oq : ObservableQuery)
    : ObservableQuery :=
  mkObservableQuery (query oq) (currentResult oq)
    (registry_unsubscribe s (observers oq)) (next_id oq) (concast oq).

(** The engine with delivery stream [c]. *)
Definition set_concast (c : Concast) (oq : ObservableQuery) : ObservableQuery :=
  mkObservableQuery (query oq) (currentResult oq) (observers oq) (next_id oq)
    (Some c).

(** Modelled from the spec: [observable.refetch(variables)] and
    [observable.fetchMore(options)] each return "a fresh promise for that
    specific operation's outcome" (§4.6). *)
Definition observable_refetch (variables : value) (w : World) : pid * World :=
  let '(p, ps) := new_promise (promises w) in
  (p, log (EngineRefetch variables) (set_promises ps w)).

(** Modelled from the spec: [observable.fetchMore(options)], as
    [observable.refetch] above. *)
Definition observable_fetchMore (options : value) (w : World) : pid * World :=
  let '(p, ps) := new_promise (promises w) in
  (p, log (EngineFetchMore options) (set_promises ps w)).

(** ** The class *)

(** The function [listen] returns: [() => { this.listeners.delete(listener) }]
    with [listener] captured. *)
Inductive Unregister : Type :=
  | UnregisterListener (listener : Listener).

Section QuerySubscription.
Context `{Imports} `{Callbacks}.

(** [wrapWithCustomPromise(concast)]: a new promise whose executor
    subscribes the one-shot observer to the stream. *)
Definition wrapWithCustomPromise (ps : gmap pid pstate) (c : Concast)
    : pid * gmap pid pstate * Concast :=
  let '(p, ps') := new_promise ps in
  let '(_, c') := concast_subscribe (FirstChunkObserver p) c in
  (p, ps', c').

(** [new QuerySubscription(observable, options)]; [None] is the failed
    [invariant]. *)
Definition constructor (env : Env) (options : Options) : option World :=
  let result := currentResult (env_observable env) in
  let onDispose := options_onDispose options in
  let '(subscription, ps, oq) :=
    observable_subscribe CoordinatorObserver (env_promises env)
      (env_observable env) in
  match concast oq with
  | None => None
  | Some c =>
      let '(promise, ps', c') :=
        if hasDirectives ["defer"] (query oq)
        then wrapWithCustomPromise ps c
        else (concast_promise c, ps, c) in
      Some (mkWorld (env_heap env) ps' (set_concast c' oq)
              (mkQuerySubscription result promise subscription [] onDispose)
              (env_trace env))
  end.

(** [listen(listener)]. *)
Definition listen (listener : Listener) (w : World) : Unregister * World :=
  (UnregisterListener listener,
   set_listeners (Set_add listener (listeners (this w))) w).

(** Calling the function [listen] returned. *)
Definition unregister (u : Unregister) (w : World) : World :=
  match u with
  | UnregisterListener listener =>
      set_listeners (Set_delete listener (listeners (this w))) w
  end.

(** [refetch(variables)]. *)
Definition refetch (variables : value) (w : World) : pid * World :=
  let '(p, w') := observable_refetch variables w in
  let w'' := set_promise p w' in
  (promise (this w''), w'').

(** [fetchMore(options)]. *)
Definition fetchMore (options : value) (w : World) : pid * World :=
  let '(p, w') := observable_fetchMore options w in
  let w'' := set_promise p w' in
  (promise (this w''), w'').

(** [this.onDispose()]: the hook given in the options, or the no-op
    method. *)
Definition call_onDispose (w : World) : World :=
  match onDispose (this w) with
  | Some h => log (DisposeHookCalled h) w
  | None => w
  end.

(** [dispose()]. *)
Definition dispose (w : World) : World :=
  call_onDispose
    (set_observable
       (observable_unsubscribe (subscription (this w)) (observable w)) w).

(** [set.forEach(listener => listener(result))] over the listeners [ls]:
    the listeners are called in insertion order; when a call raises, the
    exception leaves [forEach] and the remaining listeners are not called. *)
Fixpoint forEach (r : loc) (ls : list Listener) (w : World) : World :=
  match ls with
  | [] => w
  | listener :: rest =>
      let w' := log (ListenerCalled listener r) w in
      if raises listener r (heap w') then w' else forEach r rest w'
  end.

(** [deliver(result)]: [this.listeners.forEach(listener => listener(result))].
    It is the last statement of both handlers, so an exception that leaves it
    skips nothing else of the class. *)
Definition deliver (r : loc) (w : World) : World :=
  forEach r (listeners (this w)) w.

(** The condition of the first [if] of [handleNext]. *)
Definition backfills (r : loc) (w : World) : bool :=
  isNetworkRequestSettled (get "networkStatus" (deref (heap w) r))
  && truthy (get "data" (deref (heap w) (result (this w))))
  && is_undefined (get "data" (deref (heap w) r)).

(** [handleNext(result)]; [result] is a reference, and the assignment to
    [result.data] writes through it. *)
Definition handleNext (r : loc) (w : World) : World :=
  let w1 :=
    if backfills r w
    then set_heap
           (<[r := <["data" := get "data" (deref (heap w) (result (this w)))]>
                     (deref (heap w) r)]> (heap w)) w
    else w in
  if negb (equal (deref (heap w1) (result (this w1))) (deref (heap w1) r))
  then deliver r (set_result r w1)
  else w1.

(** [handleError(error)]; the object literal allocates a new snapshot. *)
Definition handleError (error : value) (w : World) : World :=
  let r := fresh (dom (heap w)) in
  let o := <["networkStatus" := NetworkStatus_error]>
             (<["error" := error]> (deref (heap w) (result (this w)))) in
  deliver r (set_result r (set_heap (<[r := o]> (heap w)) w)).

(** *** Events raised by the engine *)

(** Modelled from the spec: the engine hands a result or an error to every
    observer registered with it at that moment (§2 data flow, §4.1 step 2). *)
Definition query_observer_next (o : query_observer) (r : loc) (w : World)
    : World :=
  match o with
  | CoordinatorObserver => handleNext r w
  | ForeignObserver n => log (ForeignNext n r) w
  end.

(** Modelled from the spec: the engine hands an error to an observer
    registered with it. *)
Definition query_observer_error (o : query_observer) (e : value) (w : World)
    : World :=
  match o with
  | CoordinatorObserver => handleError e w
  | ForeignObserver n => log (ForeignError n e) w
  end.

(** Updating the delivery stream of the engine, when there is one. *)
Definition update_concast (f : Concast → Concast) (w : World) : World :=
  match concast (observable w) with
  | Some c => set_observable (set_concast (f c) (observable w)) w
  | None => w
  end.

(** The observer of [wrapWithCustomPromise], registered under handle [s]:
    [next: value => { resolve(value); subscription.unsubscribe() }] and
    [error: reject]. *)
Definition stream_observer_next (s : subid) (o : stream_observer) (r : loc)
    (w : World) : World :=
  match o with
  | FirstChunkObserver p =>
      update_concast (concast_unsubscribe s)
        (set_promises (resolve p r (promises w)) w)
  | StreamObserver n => log (ForeignNext n r) w
  end.

(** The [error: reject] half of that observer. *)
Definition stream_observer_error (o : stream_observer) (e : value)
    (w : World) : World :=
  match o with
  | FirstChunkObserver p => set_promises (reject p e (promises w)) w
  | StreamObserver n => log (ForeignError n e) w
  end.

(** Modelled from the spec: what the engine can do on its own: hand a
    result or an error to its observers, and emit a chunk or an error on the
    delivery stream. *)
Inductive engine_event : Type :=
  | EmitNext (r : loc)
  | EmitError (e : value)
  | StreamNext (r : loc)
  | StreamError (e : value).

(** The observers of the delivery stream, when there is one. *)
Definition stream_observers_of (w : World) : list (subid * stream_observer) :=
  match concast (observable w) with
  | Some c => concast_observers c
  | None => []
  end.

(** Modelled from the spec: an event reaches every observer registered
    when it is raised, in the order of registration.  An exception that
    leaves a handler of the coordinator is not followed further: the engine
    goes on to its other observers. *)
Definition engine_step (ev : engine_event) (w : World) : World :=
  match ev with
  | EmitNext r =>
      foldl (λ w so, query_observer_next so.2 r w) w
        (observers (observable w))
  | EmitError e =>
      foldl (λ w so, query_observer_error so.2 e w) w
        (observers (observable w))
  | StreamNext r =>
      foldl (λ w so, stream_observer_next so.1 so.2 r w) w
        (stream_observers_of w)
  | StreamError e =>
      foldl (λ w so, stream_observer_error so.2 e w) w
        (stream_observers_of w)
  end.

(** *** Histories

    Everything that can happen to a coordinator after its construction:
    calls of its public methods, calls of a function [listen] returned, and
    events of the engine, one at a time (§5). *)
Inductive operation : Type :=
  | Listen (listener : Listener)
  | CallUnregister (u : Unregister)
  | Refetch (variables : value)
  | FetchMore (options : value)
  | Dispose
  | Engine (ev : engine_event).

Definition run_operation (w : World) (op : operation) : World :=
  match op with
  | Listen listener => (listen listener w).2
  | CallUnregister u => unregister u w
  | Refetch variables => (refetch variables w).2
  | FetchMore options => (fetchMore options w).2
  | Dispose => dispose w
  | Engine ev => engine_step ev w
  end.

Definition run (ops : list operation) (w : World) : World :=
  foldl run_operation w ops.

(** The operations in which the delivery stream emits. *)
Definition is_stream_operation (op : operation) : bool :=
  match op with
  | Engine (StreamNext _) | Engine (StreamError _) => true
  | _ => false
  end.

(** The operations that come from the engine rather than from a caller of
    the public methods. *)
Definition is_engine_operation (op : operation) : bool :=
  match op with Engine _ => true | _ => false end.

(** The invariant of a coordinator in use: the listener set holds no
    callback twice, and the engine knows the coordinator's pair of handlers
    under the handle kept in [subscription] only. *)
Definition coordinator_ok (w : World) : Prop :=
  NoDup (listeners (this w))
  ∧ Forall (λ so, so.2 = CoordinatorObserver → so.1 = subscription (this w))
      (observers (observable w)).

End QuerySubscription.

(** ** A concrete set of collaborators *)

(** Induction on payload values, through arrays and objects. *)
Section value_induction.
Variable P : value → Prop.
Hypothesis Hundefined : P VUndefined.
Hypothesis Hnull : P VNull.
Hypothesis Hbool : ∀ b, P (VBool b).
Hypothesis Hnumber : ∀ n, P (VNumber n).
Hypothesis Hstring : ∀ s, P (VString s).
Hypothesis Harray : ∀ items, Forall P items → P (VArray items).
Hypothesis Hobject : ∀ props, Forall (λ kv, P kv.2) props → P (VObject props).

Fixpoint value_nested_ind (v : value) : P v :=
  match v with
  | VUndefined => Hundefined
  | VNull => Hnull
  | VBool b => Hbool b
  | VNumber n => Hnumber n
  | VString s => Hstring s
  | VArray items =>
      Harray items
        ((fix go (l : list value) : Forall P l :=
            match l with
            | [] => Forall_nil_2 P
            | x :: l' => Forall_cons_2 P x l' (value_nested_ind x) (go l')
            end) items)
  | VObject props =>
      Hobject props
        ((fix go (l : list (string * value)) : Forall (λ kv, P kv.2) l :=
            match l with
            | [] => Forall_nil_2 _
            | kv :: l' =>
                Forall_cons_2 (λ kv, P kv.2) kv l' (value_nested_ind kv.2) (go l')
            end) props)
  end.
End value_induction.

(** Structural equality of two snapshots: every property reads as
    structurally equal values on both sides (a property holding [undefined]
    reads like an absent one). *)
Definition structural_equal (a b : obj) : bool :=
  forallb (λ kv, value_eqb kv.2 (get kv.1 b)) (map_to_list a)
  && forallb (λ kv, value_eqb kv.2 (get kv.1 a)) (map_to_list b).

(** Modelled from the spec: the network statuses of [core/networkStatus]
    (not under src/) and their classification: a settled status is one
    "indicating the request is no longer in flight (success or error, not
    loading)".  A status is a number at run time. *)
Inductive NetworkStatus : Type :=
  | loading | setVariables | NS_fetchMore | NS_refetch | poll | ready | error.

Definition NetworkStatus_value (s : NetworkStatus) : value :=
  VNumber match s with
          | loading => 1 | setVariables => 2 | NS_fetchMore => 3
          | NS_refetch => 4 | poll => 6 | ready => 7 | error => 8
          end.

Definition settled (v : value) : bool :=
  value_eqb v (NetworkStatus_value ready)
  || value_eqb v (NetworkStatus_value error).

Definition all_present (names doc : list string) : bool :=
  forallb (λ n, bool_decide (n ∈ doc)) names.

(** Listeners that always return. *)
#[global] Instance returning_callbacks : Callbacks := {|
  raises := λ _ _ _, false;
|}.


#[global] Instance concrete_imports : Imports := {|
  equal := structural_equal;
  isNetworkRequestSettled := settled;
  NetworkStatus_error := NetworkStatus_value error;
  hasDirectives := all_present;
|}.

(** ** Reading the trace *)

(** The calls a fan-out of [r] over the listeners [ls] makes. *)
Definition fan_out (r : loc) (ls : list Listener) : list event :=
  map (λ l, ListenerCalled l r) ls.

(** The listeners a [forEach] over [ls] calls: all of them up to and
    including the first one that raises. *)
Fixpoint called `{Callbacks} (r : loc) (h : gmap loc obj) (ls : list Listener)
    : list Listener :=
  match ls with
  | [] => []
  | l :: rest => l :: if raises l r h then [] else called r h rest
  end.

(** The snapshots listener [l] was called with, in order. *)
Definition calls_of (l : Listener) (t : list event) : list loc :=
  omap (λ ev, match ev with
              | ListenerCalled l' r => if decide (l' = l) then Some r else None
              | _ => None
              end) t.

Definition is_listener_call (ev : event) : bool :=
  match ev with ListenerCalled _ _ => true | _ => false end.

(** All listener calls of a trace. *)
Definition listener_calls (t : list event) : list event :=
  filter (λ ev, is_listener_call ev) t.

(** The dispose hooks called, in order. *)
Definition hook_calls (t : list event) : list Hook :=
  omap (λ ev, match ev with DisposeHookCalled h => Some h | _ => None end) t.

(** The snapshot [handleNext] compares with the current one: the incoming
    snapshot with [data] filled in when the first [if] fires. *)
Definition normalised `{Imports} (r : loc) (w : World) : obj :=
  if backfills r w
  then <["data" := get "data" (deref (heap w) (result (this w)))]>
         (deref (heap w) r)
  else deref (heap w) r.

(** What the observers of other consumers cannot change: the coordinator's
    fields, the observers registered with the engine and the listener calls
    of the trace. *)
Definition same_coordinator (w0 w : World) : Prop :=
  this w = this w0
  ∧ observers (observable w) = observers (observable w0)
  ∧ listener_calls (trace w) = listener_calls (trace w0).

(** Handles of a delivery stream: pairwise distinct, and below the counter
    the next handle is taken from. *)
Definition wf_concast (c : Concast) : Prop :=
  NoDup (concast_observers c).*1
  ∧ Forall (λ so, so.1 < concast_next_id c) (concast_observers c).

(** ** Scenarios

    Concrete worlds on which the statements below are exercised. *)

Definition D : value := VObject [("greeting", VString "hello")].
Definition E1 : value := VObject [("message", VString "network down")].

(** [{ data: D, networkStatus: loading }] *)
Definition snapshot_loading : obj :=
  {[ "data" := D; "networkStatus" := NetworkStatus_value loading ]}.

(** [{ data: undefined, networkStatus: error }] *)
Definition snapshot_error : obj :=
  {[ "data" := VUndefined; "networkStatus" := NetworkStatus_value error ]}.

(** [{ data: D, networkStatus: error }] *)
Definition snapshot_masked : obj :=
  {[ "data" := D; "networkStatus" := NetworkStatus_value error ]}.

(** [{ data: D, error: E1, networkStatus: error }] *)
Definition snapshot_failed : obj :=
  {[ "data" := D; "error" := E1;
     "networkStatus" := NetworkStatus_value error ]}.

(** [{ data: undefined, error: E1, networkStatus: error }] *)
Definition snapshot_failed_nodata : obj :=
  {[ "data" := VUndefined; "error" := E1;
     "networkStatus" := NetworkStatus_value error ]}.

Definition scenario_engine : ObservableQuery :=
  mkObservableQuery [] 1%positive
    [(0, CoordinatorObserver); (1, ForeignObserver 0)] 2
    (Some (mkConcast 1%positive [(0, StreamObserver 1)] 1)).

(** A coordinator holding snapshot 1 (loading, with data), two listeners and
    a dispose hook; snapshot 2 is a settled error without data, snapshot 3 a
    second object structurally equal to snapshot 1. *)
Definition scenario : World :=
  mkWorld
    {[ 1%positive := snapshot_loading; 2%positive := snapshot_error;
       3%positive := snapshot_loading ]}
    {[ 1%positive := Pending ]}
    scenario_engine
    (mkQuerySubscription 1%positive 1%positive 0 [7; 9] (Some 5))
    [].


(** The same coordinator once error [E1] was folded into its snapshot;
    snapshot 3 repeats that error without data. *)
Definition scenario_after_error : World :=
  mkWorld
    {[ 1%positive := snapshot_failed; 2%positive := snapshot_error;
       3%positive := snapshot_failed_nodata ]}
    {[ 1%positive := Pending ]}
    scenario_engine
    (mkQuerySubscription 1%positive 1%positive 0 [7; 9] (Some 5))
    [].

(** The coordinator of a query that uses [@defer], as constructed: its
    promise 2 is pending and its one-shot observer is the last observer of
    the stream. *)
Definition scenario_deferred : World :=
  mkWorld
    {[ 1%positive := snapshot_loading; 2%positive := snapshot_masked ]}
    {[ 1%positive := Pending; 2%positive := Pending ]}
    (mkObservableQuery ["defer"] 1%positive
       [(0, ForeignObserver 0); (1, CoordinatorObserver)] 2
       (Some (mkConcast 1%positive
                [(0, StreamObserver 1); (1, FirstChunkObserver 2%positive)] 2)))
    (mkQuerySubscription 1%positive 2%positive 1 [7] (Some 5))
    [].

(** An engine with one other consumer, before the coordinator exists; the
    query of [env_deferred] uses [@defer], that of [env_plain] does not. *)
Definition env_engine (q : list string) : ObservableQuery :=
  mkObservableQuery q 1%positive [(0, ForeignObserver 0)] 1
    (Some (mkConcast 1%positive [(0, StreamObserver 1)] 1)).

Definition env_deferred : Env :=
  mkEnv {[ 1%positive := snapshot_loading; 2%positive := snapshot_masked ]}
    {[ 1%positive := Pending ]} (env_engine ["defer"]) [].

Definition env_plain : Env :=
  mkEnv {[ 1%positive := snapshot_loading; 2%positive := snapshot_masked ]}
    {[ 1%positive := Pending ]} (env_engine []) [].

(** ** Properties *)

Lemma value_eqb_eq (a b : value) : value_eqb a b = true ↔ a = b.
Proof.
  revert b. induction a as [| | x | x | x | xs IH | ps IH] using value_nested_ind;
    intros [| | y | y | y | ys | qs]; simpl; try (split; [discriminate | congruence]);
    try tauto.
  - rewrite Bool.eqb_true_iff. split; congruence.
  - rewrite Z.eqb_eq. split; congruence.
  - rewrite String.eqb_eq. split; congruence.
  - revert ys. induction IH as [| x xs Hx _ IHxs]; intros [| y ys];
      try (split; [discriminate | congruence]); [tauto |].
    rewrite andb_true_iff, Hx, IHxs.
    split; [intros [-> Heq] | intros Heq; split]; congruence.
  - revert qs. induction IH as [| [k x] ps Hx _ IHps]; intros [| [k' y] qs];
      try (split; [discriminate | congruence]); [tauto |].
    simpl in Hx. rewrite !andb_true_iff, String.eqb_eq, Hx, IHps.
    split; [intros [[-> ->] Heq] | intros Heq; repeat split]; congruence.
Qed.

(** [structural_equal] holds exactly when every property reads the same on
    both sides. *)
Lemma structural_equal_spec (a b : obj) :
  structural_equal a b = true ↔ ∀ k, get k a = get k b.
Proof.
  unfold structural_equal. rewrite andb_true_iff, !forallb_forall. split.
  - intros [Hab Hba] k. unfold get at 1 2.
    destruct (a !! k) as [v |] eqn:Ha; simpl.
    + apply value_eqb_eq. apply (Hab (k, v)).
      by apply list_elem_of_In, elem_of_map_to_list.
    + destruct (b !! k) as [v' |] eqn:Hb; simpl; [| done].
      assert (Hv : v' = get k a).
      { apply value_eqb_eq. apply (Hba (k, v')).
        by apply list_elem_of_In, elem_of_map_to_list. }
      rewrite Hv. unfold get. by rewrite Ha.
  - intros Heq. split; intros [k v] Hin%list_elem_of_In%elem_of_map_to_list;
      simpl; apply value_eqb_eq.
    + rewrite <- Heq. unfold get. by rewrite Hin.
    + rewrite Heq. unfold get. by rewrite Hin.
Qed.

Lemma structural_equal_refl (a : obj) : structural_equal a a = true.
Proof. by apply structural_equal_spec. Qed.

Section Delivery.
Context `{Imports} `{Callbacks}.

Lemma forEach_spec (r : loc) (ls : list Listener) (w : World) :
  forEach r ls w
  = mkWorld (heap w) (promises w) (observable w) (this w)
      (trace w ++ fan_out r (called r (heap w) ls)).
Proof.
  revert w. induction ls as [| l ls IH]; intros w; simpl.
  - rewrite app_nil_r. by destruct w.
  - destruct (raises l r (heap w)); [done |].
    rewrite IH. simpl. by rewrite <- app_assoc.
Qed.

(** A fan-out adds the calls of the listeners it reaches and nothing else. *)
Lemma deliver_spec (r : loc) (w : World) :
  deliver r w
  = mkWorld (heap w) (promises w) (observable w) (this w)
      (trace w ++ fan_out r (called r (heap w) (listeners (this w)))).
Proof. apply forEach_spec. Qed.

(** When no listener raises, every listener is reached. *)
Lemma called_all (r : loc) (h : gmap loc obj) (ls : list Listener) :
  Forall (λ l, raises l r h = false) ls → called r h ls = ls.
Proof.
  induction 1 as [| l ls Hl _ IH]; [done |]. simpl. by rewrite Hl, IH.
Qed.


(** The listeners reached are listeners of the set, in its order. *)
Lemma called_sublist (r : loc) (h : gmap loc obj) (ls : list Listener) :
  called r h ls `prefix_of` ls.
Proof.
  induction ls as [| l ls IH]; simpl; [done |].
  destruct (raises l r h).
  - by apply (prefix_app_r [l] [l] ls).
  - by apply prefix_cons.
Qed.


Lemma NoDup_called (r : loc) (h : gmap loc obj) (ls : list Listener) :
  NoDup ls → NoDup (called r h ls).
Proof.
  destruct (called_sublist r h ls) as [k Hk]. rewrite Hk at 1.
  by intros [? _]%NoDup_app.
Qed.






Lemma truthy_defined (v : value) : truthy v = true → is_undefined v = false.
Proof. by destruct v. Qed.

(** The first [if] never fires on the current snapshot itself. *)
Lemma backfills_other (r : loc) (w : World) :
  backfills r w = true → r ≠ result (this w).
Proof.
  unfold backfills. intros Hb ->.
  apply andb_prop in Hb as [Hb Hu]. apply andb_prop in Hb as [_ Ht].
  apply truthy_defined in Ht. congruence.
Qed.

Lemma deref_insert (h : gmap loc obj) (l : loc) (o : obj) :
  deref (<[l := o]> h) l = o.
Proof. unfold deref. by rewrite lookup_insert_eq. Qed.

Lemma deref_insert_ne (h : gmap loc obj) (l l' : loc) (o : obj) :
  l ≠ l' → deref (<[l := o]> h) l' = deref h l'.
Proof. intros Hne. unfold deref. by rewrite lookup_insert_ne. Qed.

(** [handleNext] in one equation: the write of the first [if], then the
    comparison of the current snapshot with the normalised incoming one. *)
Lemma handleNext_unfold (r : loc) (w : World) :
  handleNext r w =
    let w1 := if backfills r w
              then set_heap (<[r := normalised r w]> (heap w)) w else w in
    if equal (deref (heap w) (result (this w))) (normalised r w)
    then w1 else deliver r (set_result r w1).
Proof.
  unfold handleNext, normalised. destruct (backfills r w) eqn:Hb; simpl.
  - rewrite deref_insert, deref_insert_ne by (by apply backfills_other).
    by destruct (equal _ _).
  - by destruct (equal _ _).
Qed.

End Delivery.

Section Results.
Context `{Imports} `{Callbacks}.


(** C2: when the incoming status is settled, the current snapshot has
    truthy [data] and the incoming [data] is [undefined], [handleNext]
    first writes the current [data] into the incoming snapshot (its other
    properties are kept); the comparison with the current snapshot and the
    fan-out then see the filled snapshot: every listener call made carries
    the filled object, and when no listener raises all listeners are
    called. *)
Theorem handleNext_backfill (r : loc) (w : World) :
  isNetworkRequestSettled (get "networkStatus" (deref (heap w) r)) = true →
  truthy (get "data" (deref (heap w) (result (this w)))) = true →
  get "data" (deref (heap w) r) = VUndefined →
  let current := deref (heap w) (result (this w)) in
  let filled := <["data" := get "data" current]> (deref (heap w) r) in
  let w1 := set_heap (<[r := filled]> (heap w)) w in
  let w' := handleNext r w in
  get "data" filled = get "data" current
  ∧ (∀ k, k ≠ "data" → filled !! k = deref (heap w) r !! k)
  ∧ w' = (if equal current filled then w1 else deliver r (set_result r w1))
  ∧ deref (heap w') r = filled
  ∧ (equal current filled = false →
     result (this w') = r
     ∧ trace w'
       = trace w ++ fan_out r (called r (heap w') (listeners (this w)))
     ∧ (Forall (λ l, raises l r (heap w') = false) (listeners (this w)) →
        trace w' = trace w ++ fan_out r (listeners (this w)))).
Proof.
  intros Hs Ht Hu current filled w1 w'.
  assert (Hb : backfills r w = true).
  { unfold backfills. by rewrite Hs, Ht, Hu. }
  assert (Hn : normalised r w = filled).
  { unfold normalised. by rewrite Hb. }
  assert (Hw' : w' = if equal current filled then w1
                     else deliver r (set_result r w1)).
  { subst w'. rewrite handleNext_unfold. simpl. by rewrite Hb, Hn. }
  split_and!.
  - unfold get, filled. by rewrite lookup_insert_eq.
  - intros k Hk. unfold filled. by rewrite lookup_insert_ne.
  - exact Hw'.
  - rewrite Hw'. destruct (equal current filled);
      [| rewrite deliver_spec]; simpl; apply deref_insert.
  - intros Hne. rewrite Hw', Hne, deliver_spec. simpl.
    split_and!; [done | done |]. intros Hq. by rewrite called_all.
Qed.


(** C4: the snapshot [handleError] stores and fans out is a copy of the
    current one with [error] set to the given error and [networkStatus]
    set to [NetworkStatus.error]; every other property reads as in the
    current snapshot, and no existing object is written.  Every listener
    call made carries the stored snapshot. *)
Theorem handleError_shallow_copy (e : value) (w : World) :
  let previous := deref (heap w) (result (this w)) in
  let w' := handleError e w in
  let stored := deref (heap w') (result (this w')) in
  stored !! "error" = Some e
  ∧ stored !! "networkStatus" = Some NetworkStatus_error
  ∧ (∀ k, k ≠ "error" → k ≠ "networkStatus" → stored !! k = previous !! k)
  ∧ (∀ l, l ∈ dom (heap w) → heap w' !! l = heap w !! l)
  ∧ trace w'
    = trace w
      ++ fan_out (result (this w'))
           (called (result (this w')) (heap w') (listeners (this w)))
  ∧ (Forall (λ l, raises l (result (this w')) (heap w') = false)
       (listeners (this w)) →
     trace w' = trace w ++ fan_out (result (this w')) (listeners (this w))).
Proof.
  intros previous w' stored. subst stored w'.
  unfold handleError. rewrite deliver_spec. simpl. rewrite deref_insert.
  split_and!.
  - rewrite lookup_insert_ne by done. apply lookup_insert_eq.
  - apply lookup_insert_eq.
  - intros k Hk1 Hk2. by rewrite !lookup_insert_ne.
  - intros l Hl. apply lookup_insert_ne. intros <-. by apply is_fresh in Hl.
  - done.
  - intros Hq. by rewrite called_all.
Qed.

End Results.

(** Closing a decidable side condition by evaluation. *)
Ltac by_evaluation := apply (bool_decide_unpack _); vm_compute; exact I.


(** The example of the stale-error rule: with current snapshot
    [{ data: D, networkStatus: loading }], the settled incoming snapshot
    [{ data: undefined, networkStatus: error }] reaches the listeners as
    [{ data: D, networkStatus: error }]. *)
Lemma handleNext_backfill_witness :
  deref (heap scenario) (result (this scenario)) = snapshot_loading
  ∧ deref (heap scenario) 2%positive = snapshot_error
  ∧ deref (heap (handleNext 2%positive scenario)) 2%positive = snapshot_masked
  ∧ trace (handleNext 2%positive scenario)
    = [ListenerCalled 7 2%positive; ListenerCalled 9 2%positive].
Proof.
  split; [reflexivity |]. split; [reflexivity |].
  destruct (handleNext_backfill 2%positive scenario) as (_ & _ & _ & Hobj & Hdel);
    [vm_compute; reflexivity .. |].
  split.
  - rewrite Hobj. vm_compute. reflexivity.
  - destruct Hdel as (_ & _ & Hall); [vm_compute; reflexivity |].
    apply Hall. by_evaluation.
Defined.




Section Listeners.
Context `{Imports} `{Callbacks}.

Lemma elem_of_Set_add (x y : Listener) (s : list Listener) :
  y ∈ Set_add x s ↔ y = x ∨ y ∈ s.
Proof.
  unfold Set_add. destruct (decide (x ∈ s)) as [Hin | Hnotin].
  - split; [by right | intros [-> | Hy]; done].
  - rewrite elem_of_app, list_elem_of_singleton. tauto.
Qed.

Lemma NoDup_Set_add (x : Listener) (s : list Listener) :
  NoDup s → NoDup (Set_add x s).
Proof.
  intros Hnd. unfold Set_add. destruct (decide (x ∈ s)) as [Hin | Hnotin]; [done |].
  apply NoDup_app. split_and!; [done | | apply NoDup_singleton].
  intros y Hy Hyx%list_elem_of_singleton. by subst.
Qed.

Lemma elem_of_Set_delete (x y : Listener) (s : list Listener) :
  y ∈ Set_delete x s ↔ y ≠ x ∧ y ∈ s.
Proof. unfold Set_delete. by rewrite list_elem_of_filter. Qed.

Lemma Set_delete_absent (x : Listener) (s : list Listener) :
  x ∉ s → Set_delete x s = s.
Proof.
  induction s as [| y s IH]; intros Hx; [done |].
  apply not_elem_of_cons in Hx as [Hne Hx]. unfold Set_delete in *.
  rewrite filter_cons_True by done. f_equal. by apply IH.
Qed.



End Listeners.



Section Promise.
Context `{Imports} `{Callbacks}.

(** C6: [refetch] and [fetchMore] call the engine's operation, store the
    promise it returns in the [promise] field and return that same
    promise; the result, the listeners, the subscription, the dispose
    hook, the heap and the engine's registries are as before. *)
Theorem refetch_fetchMore_promise (arg : value) (w : World) :
  (let p := (refetch arg w).1 in
   let w' := (refetch arg w).2 in
   p = (observable_refetch arg w).1
   ∧ promise (this w') = p
   ∧ promises w !! p = None
   ∧ result (this w') = result (this w)
   ∧ listeners (this w') = listeners (this w)
   ∧ subscription (this w') = subscription (this w)
   ∧ onDispose (this w') = onDispose (this w)
   ∧ heap w' = heap w
   ∧ observable w' = observable w
   ∧ trace w' = trace w ++ [EngineRefetch arg])
  ∧ (let p := (fetchMore arg w).1 in
     let w' := (fetchMore arg w).2 in
     p = (observable_fetchMore arg w).1
     ∧ promise (this w') = p
     ∧ promises w !! p = None
     ∧ result (this w') = result (this w)
     ∧ listeners (this w') = listeners (this w)
     ∧ subscription (this w') = subscription (this w)
     ∧ onDispose (this w') = onDispose (this w)
     ∧ heap w' = heap w
     ∧ observable w' = observable w
     ∧ trace w' = trace w ++ [EngineFetchMore arg]).
Proof.
  split; simpl; split_and!; try done; apply not_elem_of_dom, is_fresh.
Qed.

End Promise.

Section Disposal.
Context `{Imports} `{Callbacks}.

Lemma hook_calls_app (t1 t2 : list event) :
  hook_calls (t1 ++ t2) = hook_calls t1 ++ hook_calls t2.
Proof. apply omap_app. Qed.

Lemma listener_calls_app (t1 t2 : list event) :
  listener_calls (t1 ++ t2) = listener_calls t1 ++ listener_calls t2.
Proof. apply filter_app. Qed.

Lemma registry_unsubscribe_idemp {O : Type} (s : subid) (reg : list (subid * O)) :
  registry_unsubscribe s (registry_unsubscribe s reg) = registry_unsubscribe s reg.
Proof.
  unfold registry_unsubscribe. rewrite list_filter_filter.
  apply list_filter_iff. tauto.
Qed.

Lemma registry_unsubscribe_gone {O : Type} (s : subid) (o : O)
    (reg : list (subid * O)) :
  (s, o) ∉ registry_unsubscribe s reg.
Proof. unfold registry_unsubscribe. rewrite list_elem_of_filter. simpl. tauto. Qed.

(** One call of [dispose]. *)
Lemma dispose_spec (w : World) :
  dispose w
  = mkWorld (heap w) (promises w)
      (observable_unsubscribe (subscription (this w)) (observable w))
      (this w)
      (trace w ++ match onDispose (this w) with
                  | Some h => [DisposeHookCalled h]
                  | None => []
                  end).
Proof.
  unfold dispose, call_onDispose. simpl.
  destruct (onDispose (this w)); [done |].
  unfold set_observable. by rewrite app_nil_r.
Qed.

(** C8, as the code has it: every call of [dispose] unsubscribes the
    engine subscription (a no-op once released) and calls the dispose
    hook, so after [n + 1] calls the hook has been called [n + 1] times;
    the fields of the coordinator, the heap, the promises and the
    listener calls are untouched. *)
Theorem dispose_each_call (n : nat) (w : World) :
  let w' := Nat.iter (S n) dispose w in
  observers (observable w')
  = registry_unsubscribe (subscription (this w)) (observers (observable w))
  ∧ (∀ o, (subscription (this w), o) ∉ observers (observable w'))
  ∧ hook_calls (trace w')
    = hook_calls (trace w)
      ++ match onDispose (this w) with
         | Some h => replicate (S n) h
         | None => []
         end
  ∧ listener_calls (trace w') = listener_calls (trace w)
  ∧ this w' = this w
  ∧ heap w' = heap w
  ∧ promises w' = promises w
  ∧ concast (observable w') = concast (observable w).
Proof.
  induction n as [| n IH]; simpl in *.
  - rewrite dispose_spec. simpl. split_and!; try done.
    + intros o. apply registry_unsubscribe_gone.
    + rewrite hook_calls_app. by destruct (onDispose (this w)).
    + rewrite listener_calls_app. destruct (onDispose (this w)); simpl;
        by rewrite app_nil_r.
  - destruct IH as (Hobs & Hgone & Hhooks & Hcalls & Hthis & Hheap & Hps & Hc).
    rewrite dispose_spec. simpl. rewrite Hthis, Hobs, Hheap, Hps, Hc.
    rewrite registry_unsubscribe_idemp. split_and!; try done.
    + intros o. apply registry_unsubscribe_gone.
    + rewrite hook_calls_app, Hhooks, <- app_assoc. f_equal.
      destruct (onDispose (this w)) as [h |]; simpl; [| done].
      f_equal.
      by rewrite <- replicate_cons_app.
    + rewrite listener_calls_app, Hcalls. destruct (onDispose (this w)); simpl;
        by rewrite app_nil_r.
Qed.

End Disposal.

(** C8, as stated, fails: on the scenario a second [dispose] calls the
    hook a second time. *)
Lemma dispose_twice_calls_hook_twice :
  hook_calls (trace (dispose scenario)) = [5]
  ∧ hook_calls (trace (dispose (dispose scenario))) = [5; 5].
Proof. split; vm_compute; reflexivity. Qed.

Section Severed.
Context `{Imports} `{Callbacks}.

Lemma same_coordinator_refl (w : World) : same_coordinator w w.
Proof. unfold same_coordinator. by split_and!. Qed.

Lemma same_coordinator_trans (w0 w1 w2 : World) :
  same_coordinator w0 w1 → same_coordinator w1 w2 → same_coordinator w0 w2.
Proof.
  unfold same_coordinator. intros (? & ? & ?) (? & ? & ?).
  split_and!; by etrans.
Qed.

Lemma same_coordinator_log (ev : event) (w0 w : World) :
  is_listener_call ev = false →
  same_coordinator w0 w → same_coordinator w0 (log ev w).
Proof.
  unfold same_coordinator. intros Hev (Hthis & Hobs & Hcalls).
  split_and!; simpl; try done.
  rewrite listener_calls_app, Hcalls. unfold listener_calls at 2.
  rewrite filter_cons_False, filter_nil, app_nil_r; [done |].
  simpl. rewrite Hev. exact id.
Qed.

Lemma foldl_preserves {A : Type} (P : World → Prop) (f : World → A → World)
    (l : list A) (w : World) :
  (∀ w a, a ∈ l → P w → P (f w a)) → P w → P (foldl f w l).
Proof.
  revert w. induction l as [| a l IH]; intros w Hstep Hw; [done |].
  simpl. apply IH.
  - intros w' a' Ha'. apply Hstep. by right.
  - apply Hstep; [by left | done].
Qed.

Lemma stream_observer_next_same (s : subid) (o : stream_observer) (r : loc)
    (w0 w : World) :
  same_coordinator w0 w → same_coordinator w0 (stream_observer_next s o r w).
Proof.
  intros Hsame. destruct o as [p | n]; simpl.
  - unfold update_concast. simpl. by destruct (concast (observable w)).
  - by apply same_coordinator_log.
Qed.

Lemma stream_observer_error_same (o : stream_observer) (e : value)
    (w0 w : World) :
  same_coordinator w0 w → same_coordinator w0 (stream_observer_error o e w).
Proof.
  intros Hsame. destruct o as [p | n]; simpl; [done |].
  by apply same_coordinator_log.
Qed.

(** With the coordinator's observer gone from the engine, an event of the
    engine reaches no handler of the coordinator. *)
Lemma engine_step_detached (ev : engine_event) (w : World) :
  Forall (λ so, so.2 ≠ CoordinatorObserver) (observers (observable w)) →
  same_coordinator w (engine_step ev w).
Proof.
  intros Hdet. rewrite Forall_forall in Hdet.
  destruct ev as [r | e | r | e]; simpl;
    apply foldl_preserves; try apply same_coordinator_refl.
  - intros w' [s o] Hin Hsame. specialize (Hdet _ Hin). simpl in *.
    destruct o as [| n]; [done |]. by apply same_coordinator_log.
  - intros w' [s o] Hin Hsame. specialize (Hdet _ Hin). simpl in *.
    destruct o as [| n]; [done |]. by apply same_coordinator_log.
  - intros w' [s o] _ Hsame. by apply stream_observer_next_same.
  - intros w' [s o] _ Hsame. by apply stream_observer_error_same.
Qed.

(** Once the coordinator's observer is gone, nothing that can happen to the
    coordinator calls a listener or replaces the current result. *)
Lemma run_operation_detached (op : operation) (w : World) :
  Forall (λ so, so.2 ≠ CoordinatorObserver) (observers (observable w)) →
  Forall (λ so, so.2 ≠ CoordinatorObserver)
    (observers (observable (run_operation w op)))
  ∧ listener_calls (trace (run_operation w op)) = listener_calls (trace w)
  ∧ result (this (run_operation w op)) = result (this w).
Proof.
  intros Hdet. destruct op as [l | [l] | v | v | | ev]; simpl; try done.
  - split_and!; [done | | done]. rewrite listener_calls_app. apply app_nil_r.
  - split_and!; [done | | done]. rewrite listener_calls_app. apply app_nil_r.
  - rewrite dispose_spec. simpl. split_and!; [| | done].
    + unfold registry_unsubscribe. apply Forall_forall.
      intros so [_ Hin]%list_elem_of_filter. rewrite Forall_forall in Hdet.
      by apply Hdet.
    + rewrite listener_calls_app. destruct (onDispose (this w)); simpl;
        by rewrite app_nil_r.
  - destruct (engine_step_detached ev w Hdet) as (-> & -> & ->). done.
Qed.

Lemma run_detached (ops : list operation) (w : World) :
  Forall (λ so, so.2 ≠ CoordinatorObserver) (observers (observable w)) →
  listener_calls (trace (run ops w)) = listener_calls (trace w)
  ∧ result (this (run ops w)) = result (this w).
Proof.
  revert w. induction ops as [| op ops IH]; intros w Hdet; [done |].
  destruct (run_operation_detached op w Hdet) as (Hdet' & <- & <-).
  simpl. by apply IH.
Qed.

(** C9, as the code has it: [dispose] leaves the listener set as it is
    and takes the coordinator's observer out of the engine; whatever the
    engine emits afterwards, to its observers or on its delivery stream,
    and whatever method of the coordinator is called, no listener is called
    and the current result stays.  (The handlers themselves do not look at
    whether [dispose] was called.) *)
Theorem dispose_severs_engine_delivery (ops : list operation) (w : World) :
  Forall (λ so, so.2 = CoordinatorObserver → so.1 = subscription (this w))
    (observers (observable w)) →
  let w' := run ops (dispose w) in
  listeners (this (dispose w)) = listeners (this w)
  ∧ listener_calls (trace w') = listener_calls (trace w)
  ∧ result (this w') = result (this w).
Proof.
  intros Honly w'.
  assert (Hdet : Forall (λ so, so.2 ≠ CoordinatorObserver)
                   (observers (observable (dispose w)))).
  { rewrite dispose_spec. simpl. unfold registry_unsubscribe.
    apply Forall_forall. intros [s o] [Hs Hin]%list_elem_of_filter Ho.
    rewrite Forall_forall in Honly. by apply Hs, (Honly _ Hin). }
  destruct (run_detached ops (dispose w) Hdet) as (Hcalls & Hres).
  subst w'. rewrite Hcalls, Hres, dispose_spec. simpl. split_and!; try done.
  rewrite listener_calls_app. destruct (onDispose (this w)); simpl;
    by rewrite app_nil_r.
Qed.

End Severed.

(** On the scenario: after [dispose], a result and an error emitted by the
    engine, and a chunk and an error on the delivery stream, call no
    listener; the two listeners are still registered. *)
Lemma dispose_severs_engine_delivery_witness :
  Forall (λ so, so.2 = CoordinatorObserver → so.1 = subscription (this scenario))
    (observers (observable scenario))
  ∧ listeners (this (dispose scenario)) = [7; 9]
  ∧ listener_calls
      (trace (run [Engine (EmitNext 2%positive); Engine (EmitError E1);
                   Engine (StreamNext 2%positive); Engine (StreamError E1)]
                (dispose scenario))) = [].
Proof.
  assert (Honly : Forall (λ so, so.2 = CoordinatorObserver
                                → so.1 = subscription (this scenario))
                    (observers (observable scenario))) by by_evaluation.
  split; [exact Honly |].
  destruct (dispose_severs_engine_delivery
              [Engine (EmitNext 2%positive); Engine (EmitError E1);
               Engine (StreamNext 2%positive); Engine (StreamError E1)]
              scenario Honly)
    as (Hls & Hcalls & _).
  split; [exact Hls | exact Hcalls].
Defined.

(** C9, as stated, fails: on the scenario, a result or an error handed to
    the raw handlers after [dispose] still reaches listener 7. *)
Lemma handlers_after_dispose_deliver :
  calls_of 7 (trace (dispose scenario)) = []
  ∧ calls_of 7 (trace (handleNext 2%positive (dispose scenario))) = [2%positive]
  ∧ calls_of 7 (trace (handleError E1 (dispose scenario))) = [4%positive].
Proof. split_and!; vm_compute; reflexivity. Qed.

Section InPlace.
Context `{Imports} `{Callbacks}.

(** C10, as the code has it: when the first [if] of [handleNext] fires,
    the write goes to the object the engine handed over: that object
    changes, nothing is allocated and no other object is touched.  The
    comparison then decides: unless [equal] finds the filled snapshot equal
    to the current one, the same reference is stored as the current result
    and is what the listeners are called with. *)
Theorem handleNext_backfill_in_place (r : loc) (o : obj) (w : World) :
  heap w !! r = Some o →
  backfills r w = true →
  let current := deref (heap w) (result (this w)) in
  let filled := <["data" := get "data" current]> o in
  let w' := handleNext r w in
  heap w' = <[r := filled]> (heap w)
  ∧ dom (heap w') = dom (heap w)
  ∧ filled ≠ o
  ∧ if equal current filled
    then this w' = this w ∧ trace w' = trace w
    else result (this w') = r
         ∧ trace w'
           = trace w ++ fan_out r (called r (heap w') (listeners (this w)))
         ∧ (Forall (λ l, raises l r (heap w') = false) (listeners (this w)) →
            trace w' = trace w ++ fan_out r (listeners (this w))).
Proof.
  intros Hr Hb current filled w'.
  assert (Ho : deref (heap w) r = o) by (unfold deref; by rewrite Hr).
  assert (Hn : normalised r w = filled).
  { unfold normalised. by rewrite Hb, Ho. }
  subst w'. rewrite handleNext_unfold. simpl. rewrite Hb, Hn. fold current.
  assert (Hne : filled ≠ o).
  { intros Heq. unfold backfills in Hb. rewrite Ho in Hb.
    apply andb_prop in Hb as [Hb Hu]. apply andb_prop in Hb as [_ Ht].
    apply truthy_defined in Ht. fold current in Ht.
    assert (Hd : get "data" filled = get "data" current).
    { unfold get, filled. by rewrite lookup_insert_eq. }
    rewrite Heq in Hd. congruence. }
  assert (Hdom : dom (<[r := filled]> (heap w)) = dom (heap w)).
  { apply dom_insert_lookup_L. by exists o. }
  destruct (equal current filled); [| rewrite deliver_spec]; simpl;
    split_and!; try done.
  intros Hq. by rewrite called_all.
Qed.

End InPlace.

(** On the scenario, the settled error snapshot 2 is filled in place and
    then stored and fanned out. *)
Lemma handleNext_backfill_in_place_witness :
  heap scenario !! 2%positive = Some snapshot_error
  ∧ backfills 2%positive scenario = true
  ∧ heap (handleNext 2%positive scenario) !! 2%positive = Some snapshot_masked
  ∧ dom (heap (handleNext 2%positive scenario)) = dom (heap scenario).
Proof.
  assert (Hr : heap scenario !! 2%positive = Some snapshot_error)
    by (vm_compute; reflexivity).
  assert (Hb : backfills 2%positive scenario = true) by (vm_compute; reflexivity).
  destruct (handleNext_backfill_in_place 2%positive snapshot_error scenario Hr Hb)
    as (Hheap & Hdom & _).
  split_and!; [exact Hr | exact Hb | | exact Hdom].
  rewrite Hheap, lookup_insert_eq. vm_compute. reflexivity.
Defined.

(** C10, as stated, fails: on the scenario after an error, snapshot 3 meets
    the condition of the first [if] and is filled in place, but the filled
    snapshot equals the current one, so it is neither stored as the current
    result nor passed to a listener. *)
Lemma backfilled_snapshot_can_be_discarded :
  backfills 3%positive scenario_after_error = true
  ∧ heap scenario_after_error !! 3%positive = Some snapshot_failed_nodata
  ∧ heap (handleNext 3%positive scenario_after_error) !! 3%positive
    = Some snapshot_failed
  ∧ result (this (handleNext 3%positive scenario_after_error)) = 1%positive
  ∧ trace (handleNext 3%positive scenario_after_error) = [].
Proof. split_and!; vm_compute; reflexivity. Qed.

Section FirstChunk.
Context `{Imports} `{Callbacks}.

(** What the constructor builds, given the delivery stream the engine
    exposes once the coordinator has subscribed. *)
Lemma constructor_spec (env : Env) (options : Options) (c : Concast) :
  let sub := observable_subscribe CoordinatorObserver (env_promises env)
               (env_observable env) in
  concast sub.2 = Some c →
  constructor env options =
    let '(p, ps, c') :=
      if hasDirectives ["defer"] (query (env_observable env))
      then wrapWithCustomPromise sub.1.2 c
      else (concast_promise c, sub.1.2, c) in
    Some (mkWorld (env_heap env) ps (set_concast c' sub.2)
            (mkQuerySubscription (currentResult (env_observable env)) p
               (next_id (env_observable env)) [] (options_onDispose options))
            (env_trace env)).
Proof.
  unfold constructor. simpl.
  destruct (observable_subscribe _ _ _) as [[s ps] oq] eqn:Hsub. simpl.
  intros ->. unfold observable_subscribe in Hsub.
  destruct (concast (env_observable env)) as [c0 |];
    [| destruct (new_promise _)]; by simplify_eq.
Qed.

(** Subscribing always leaves a delivery stream on the engine, so the
    [invariant] of the constructor holds and construction succeeds. *)
Lemma constructor_total (env : Env) (options : Options) :
  is_Some (constructor env options).
Proof.
  destruct (concast (observable_subscribe CoordinatorObserver
                       (env_promises env) (env_observable env)).2)
    as [c |] eqn:Hc.
  - rewrite (constructor_spec env options c Hc).
    destruct (hasDirectives _ _); simpl; eauto.
  - unfold observable_subscribe in Hc.
    destruct (concast (env_observable env)); [| destruct (new_promise _)];
      discriminate.
Qed.

Lemma resolve_settles (p p' : pid) (r : loc) (ps : gmap pid pstate) :
  ps !! p = Some Pending ∨ ps !! p = Some (Fulfilled r) →
  (resolve p' r ps !! p = Some Pending ∨ resolve p' r ps !! p = Some (Fulfilled r))
  ∧ resolve p r ps !! p = Some (Fulfilled r).
Proof.
  intros Hp. unfold resolve. split.
  - destruct (ps !! p') as [[| |] |] eqn:Hp'; try done.
    destruct (decide (p' = p)) as [-> | Hne].
    + right. apply lookup_insert_eq.
    + by rewrite lookup_insert_ne.
  - destruct Hp as [-> | Hp]; [apply lookup_insert_eq | by rewrite Hp].
Qed.

Lemma reject_settles (p p' : pid) (e : value) (ps : gmap pid pstate) :
  ps !! p = Some Pending ∨ ps !! p = Some (Rejected e) →
  (reject p' e ps !! p = Some Pending ∨ reject p' e ps !! p = Some (Rejected e))
  ∧ reject p e ps !! p = Some (Rejected e).
Proof.
  intros Hp. unfold reject. split.
  - destruct (ps !! p') as [[| |] |] eqn:Hp'; try done.
    destruct (decide (p' = p)) as [-> | Hne].
    + right. apply lookup_insert_eq.
    + by rewrite lookup_insert_ne.
  - destruct Hp as [-> | Hp]; [apply lookup_insert_eq | by rewrite Hp].
Qed.

(** The handlers change the current result, the heap and the trace only. *)
Lemma handleNext_frame (r : loc) (w : World) :
  listeners (this (handleNext r w)) = listeners (this w)
  ∧ subscription (this (handleNext r w)) = subscription (this w)
  ∧ observable (handleNext r w) = observable w.
Proof.
  rewrite handleNext_unfold. simpl.
  destruct (equal _ _); [| rewrite deliver_spec]; by destruct (backfills r w).
Qed.

Lemma handleError_frame (e : value) (w : World) :
  listeners (this (handleError e w)) = listeners (this w)
  ∧ subscription (this (handleError e w)) = subscription (this w)
  ∧ observable (handleError e w) = observable w.
Proof. unfold handleError. by rewrite deliver_spec. Qed.

(** A settled promise stays as it is. *)
Lemma settled_promise_stable (p p' : pid) (st : pstate) (ps : gmap pid pstate) :
  st ≠ Pending → ps !! p = Some st →
  (∀ r, resolve p' r ps !! p = Some st) ∧ (∀ e, reject p' e ps !! p = Some st).
Proof.
  intros Hst Hp. unfold resolve, reject.
  split; intros x; (destruct (ps !! p') as [[| |] |] eqn:Hp'; try done);
    (rewrite lookup_insert_ne; [done | congruence]).
Qed.

Lemma promises_handleNext (r : loc) (w : World) :
  promises (handleNext r w) = promises w.
Proof.
  rewrite handleNext_unfold. simpl.
  destruct (equal _ _); [| rewrite deliver_spec]; by destruct (backfills r w).
Qed.

Lemma promises_handleError (e : value) (w : World) :
  promises (handleError e w) = promises w.
Proof. unfold handleError. by rewrite deliver_spec. Qed.

Lemma engine_step_settled (p : pid) (st : pstate) (ev : engine_event) (w : World) :
  st ≠ Pending → promises w !! p = Some st →
  promises (engine_step ev w) !! p = Some st.
Proof.
  intros Hst. destruct ev as [r | e | r | e]; simpl;
    apply (foldl_preserves (λ w, promises w !! p = Some st));
    intros w' [s o] _ Hp; simpl.
  - destruct o; simpl; [by rewrite promises_handleNext | done].
  - destruct o; simpl; [by rewrite promises_handleError | done].
  - destruct o as [p' | n]; simpl; [| done].
    unfold update_concast. simpl.
    destruct (concast (observable w')); simpl;
      by apply (settled_promise_stable p p' st).
  - destruct o as [p' | n]; simpl; [| done].
    by apply (settled_promise_stable p p' st).
Qed.

Lemma new_promise_keeps (p : pid) (st : pstate) (ps : gmap pid pstate) :
  ps !! p = Some st → (new_promise ps).2 !! p = Some st.
Proof.
  intros Hp. simpl. rewrite lookup_insert_ne; [done |].
  intros Heq. pose proof (is_fresh (dom ps)) as Hfresh.
  rewrite Heq in Hfresh. by apply Hfresh, elem_of_dom.
Qed.

Lemma run_operation_settled (p : pid) (st : pstate) (op : operation) (w : World) :
  st ≠ Pending → promises w !! p = Some st →
  promises (run_operation w op) !! p = Some st.
Proof.
  intros Hst Hp. destruct op as [l | [l] | v | v | | ev]; simpl; try done.
  - by apply (new_promise_keeps p st).
  - by apply (new_promise_keeps p st).
  - rewrite dispose_spec. done.
  - by apply engine_step_settled.
Qed.

Lemma run_settled (p : pid) (st : pstate) (ops : list operation) (w : World) :
  st ≠ Pending → promises w !! p = Some st →
  promises (run ops w) !! p = Some st.
Proof.
  intros Hst. revert w. induction ops as [| op ops IH]; intros w Hp; [done |].
  simpl. apply IH. by apply run_operation_settled.
Qed.

(** While the stream does not emit, a pending promise stays pending and the
    observers of the stream stay registered. *)
Lemma run_operation_quiet (p : pid) (op : operation) (w : World) :
  is_stream_operation op = false →
  promises w !! p = Some Pending →
  promises (run_operation w op) !! p = Some Pending
  ∧ stream_observers_of (run_operation w op) = stream_observers_of w.
Proof.
  intros Hq Hp. destruct op as [l | [l] | v | v | | [r | e | r | e]];
    simpl; try done.
  - split; [by apply (new_promise_keeps p Pending) | done].
  - split; [by apply (new_promise_keeps p Pending) | done].
  - rewrite dispose_spec. done.
  - apply (foldl_preserves
             (λ w', promises w' !! p = Some Pending
                    ∧ stream_observers_of w' = stream_observers_of w));
      [| done].
    intros w' [s o] _ [Hp' Hobs]. destruct o; simpl; [| done].
    rewrite promises_handleNext. split; [done |].
    unfold stream_observers_of in *.
    by destruct (handleNext_frame r w') as (_ & _ & ->).
  - apply (foldl_preserves
             (λ w', promises w' !! p = Some Pending
                    ∧ stream_observers_of w' = stream_observers_of w));
      [| done].
    intros w' [s o] _ [Hp' Hobs]. destruct o; simpl; [| done].
    rewrite promises_handleError. split; [done |].
    unfold stream_observers_of in *.
    by destruct (handleError_frame e w') as (_ & _ & ->).
Qed.

Lemma run_quiet (p : pid) (ops : list operation) (w : World) :
  Forall (λ op, is_stream_operation op = false) ops →
  promises w !! p = Some Pending →
  promises (run ops w) !! p = Some Pending
  ∧ stream_observers_of (run ops w) = stream_observers_of w.
Proof.
  intros Hq. revert w. induction Hq as [| op ops Hop _ IH]; intros w Hp; [done |].
  destruct (run_operation_quiet p op w Hop Hp) as [Hp' <-]. simpl. by apply IH.
Qed.

(** Two entries of a registry under the same handle are the same entry. *)
Lemma registry_handle_unique {O : Type} (reg : list (subid * O)) (s : subid)
    (o1 o2 : O) :
  NoDup reg.*1 → (s, o1) ∈ reg → (s, o2) ∈ reg → o1 = o2.
Proof.
  induction reg as [| [s' o'] reg IH]; intros Hnd H1 H2; [by apply elem_of_nil in H1 |].
  simpl in Hnd. apply NoDup_cons in Hnd as [Hnotin Hnd].
  apply elem_of_cons in H1 as [H1 | H1]; apply elem_of_cons in H2 as [H2 | H2].
  - congruence.
  - simplify_eq. exfalso. apply Hnotin.
    apply (list_elem_of_fmap_2 fst) in H2. exact H2.
  - simplify_eq. exfalso. apply Hnotin.
    apply (list_elem_of_fmap_2 fst) in H1. exact H1.
  - by apply IH.
Qed.

End FirstChunk.

Section PublicPromise.
Context `{Imports} `{Callbacks}.

Lemma stream_observer_next_effect (s : subid) (o : stream_observer) (r : loc)
    (w : World) :
  promises (stream_observer_next s o r w)
  = match o with
    | FirstChunkObserver p => resolve p r (promises w)
    | StreamObserver _ => promises w
    end
  ∧ stream_observers_of (stream_observer_next s o r w)
    = match o with
      | FirstChunkObserver _ => registry_unsubscribe s (stream_observers_of w)
      | StreamObserver _ => stream_observers_of w
      end.
Proof.
  destruct o as [p | n]; simpl; [| done].
  unfold update_concast, stream_observers_of.
  destruct w as [h ps [q cr obs nid [c |]] t tr]; simpl; split; reflexivity.
Qed.

(** The first chunk on a stream whose last observer is the one-shot
    observer of promise [p], registered under handle [s]. *)
Lemma first_chunk_resolves (p : pid) (s : subid)
    (others : list (subid * stream_observer)) (r : loc) (w : World) :
  NoDup others.*1 →
  Forall (λ so, so.1 < s) others →
  promises w !! p = Some Pending →
  stream_observers_of w = others ++ [(s, FirstChunkObserver p)] →
  let w1 := engine_step (StreamNext r) w in
  promises w1 !! p = Some (Fulfilled r)
  ∧ (∀ o, (s, o) ∉ stream_observers_of w1)
  ∧ (∀ s' n, (s', StreamObserver n) ∈ others →
             (s', StreamObserver n) ∈ stream_observers_of w1)
  ∧ same_coordinator w w1.
Proof.
  intros Hnd Hlt Hp Hobs w1. subst w1. unfold engine_step.
  rewrite Hobs, foldl_snoc. cbn beta. cbn [fst snd].
  set (step := λ (w : World) (so : subid * stream_observer),
                 stream_observer_next so.1 so.2 r w).
  set (w_mid := foldl step w others).
  assert (Hmid :
    (promises w_mid !! p = Some Pending
     ∨ promises w_mid !! p = Some (Fulfilled r))
    ∧ (∀ s' n, (s', StreamObserver n) ∈ others →
               (s', StreamObserver n) ∈ stream_observers_of w_mid)
    ∧ same_coordinator w w_mid).
  { subst w_mid. apply foldl_preserves.
    - intros w' [s'' o''] Hin (Hp' & Hkeep & Hsame). subst step. simpl.
      destruct (stream_observer_next_effect s'' o'' r w') as [-> ->].
      split_and!.
      + destruct o''; [by apply resolve_settles | done].
      + intros s' n Hin'. destruct o'' as [p'' |]; [| by apply Hkeep].
        apply list_elem_of_filter. split; [| by apply Hkeep].
        simpl. intros ->.
        by pose proof (registry_handle_unique others _ _ _ Hnd Hin Hin').
      + by apply stream_observer_next_same.
    - split_and!; [by left | | apply same_coordinator_refl].
      intros s' n Hin. rewrite Hobs. apply elem_of_app. by left. }
  destruct Hmid as (Hp' & Hkeep & Hsame).
  destruct (stream_observer_next_effect s (FirstChunkObserver p) r w_mid)
    as [-> ->].
  split_and!.
  - by refine (proj2 (resolve_settles p p r _ _)).
  - intros o. apply registry_unsubscribe_gone.
  - intros s' n Hin. apply list_elem_of_filter. split; [| by apply Hkeep].
    rewrite Forall_forall in Hlt. specialize (Hlt _ Hin). simpl in *. lia.
  - by apply stream_observer_next_same.
Qed.

(** An error on that stream while [p] is pending. *)
Lemma stream_error_rejects (p : pid) (s : subid)
    (others : list (subid * stream_observer)) (e : value) (w : World) :
  promises w !! p = Some Pending →
  stream_observers_of w = others ++ [(s, FirstChunkObserver p)] →
  promises (engine_step (StreamError e) w) !! p = Some (Rejected e).
Proof.
  intros Hp Hobs. unfold engine_step.
  rewrite Hobs, foldl_snoc. cbn beta.
  cbn [fst snd stream_observer_error promises set_promises].
  refine (proj2 (reject_settles p p e _ _)).
  apply (foldl_preserves
           (λ w, promises w !! p = Some Pending
                 ∨ promises w !! p = Some (Rejected e))); [| by left].
  intros w' [s' o'] _ Hp'. destruct o'; simpl; [| done].
  by apply reject_settles.
Qed.

(** C5: for a query that uses [@defer] the constructor makes a new
    promise and subscribes a one-shot observer for it to the delivery
    stream.  Whatever happens before the stream emits, its first chunk
    fulfils the promise with that chunk and removes this observer only (the
    other observers of the stream and the observers of the engine stay
    registered), and nothing that happens later changes the promise; a
    stream error instead of a first chunk rejects it.  For any other query
    the promise is the delivery stream's own promise and nothing is
    subscribed to the stream. *)
Theorem constructor_promise (env : Env) (options : Options) (c : Concast) :
  let sub := observable_subscribe CoordinatorObserver (env_promises env)
               (env_observable env) in
  concast sub.2 = Some c →
  wf_concast c →
  ∃ w, constructor env options = Some w ∧
    if hasDirectives ["defer"] (query (env_observable env))
    then
      let p := fresh (dom sub.1.2) in
      let s := concast_next_id c in
      promise (this w) = p
      ∧ sub.1.2 !! p = None
      ∧ promises w !! p = Some Pending
      ∧ stream_observers_of w
        = concast_observers c ++ [(s, FirstChunkObserver p)]
      ∧ (∀ before r,
           Forall (λ op, is_stream_operation op = false) before →
           let w0 := run before w in
           let w1 := engine_step (StreamNext r) w0 in
           promises w1 !! p = Some (Fulfilled r)
           ∧ (∀ o, (s, o) ∉ stream_observers_of w1)
           ∧ (∀ s' n, (s', StreamObserver n) ∈ concast_observers c →
                      (s', StreamObserver n) ∈ stream_observers_of w1)
           ∧ observers (observable w1) = observers (observable w0)
           ∧ ∀ after, promises (run after w1) !! p = Some (Fulfilled r))
      ∧ (∀ before e,
           Forall (λ op, is_stream_operation op = false) before →
           promises (engine_step (StreamError e) (run before w)) !! p
           = Some (Rejected e))
    else
      promise (this w) = concast_promise c
      ∧ promises w = sub.1.2
      ∧ stream_observers_of w = concast_observers c.
Proof.
  intros sub Hc [Hnd Hlt]. rewrite (constructor_spec env options c Hc).
  fold sub. destruct (hasDirectives _ _); simpl; eexists; (split; [done |]);
    simpl; [| done].
  set (p := fresh (dom sub.1.2)). set (s := concast_next_id c).
  set (w := mkWorld _ _ _ _ _).
  assert (Hnew : sub.1.2 !! p = None) by apply not_elem_of_dom, is_fresh.
  assert (Hp : promises w !! p = Some Pending) by apply lookup_insert_eq.
  assert (Hobs : stream_observers_of w
                 = concast_observers c ++ [(s, FirstChunkObserver p)]) by done.
  split_and!; try done.
  - intros before r Hquiet.
    destruct (run_quiet p before w Hquiet Hp) as [Hp0 Hobs0].
    rewrite Hobs in Hobs0.
    destruct (first_chunk_resolves p s (concast_observers c) r (run before w)
                Hnd Hlt Hp0 Hobs0)
      as (Hful & Hgone & Hkeep & _ & Hsame & _).
    split_and!; try done. intros after. by apply run_settled.
  - intros before e Hquiet.
    destruct (run_quiet p before w Hquiet Hp) as [Hp0 Hobs0].
    rewrite Hobs in Hobs0.
    by apply (stream_error_rejects p s (concast_observers c)).
Qed.

End PublicPromise.

(** On an engine whose query uses [@defer]: the public promise is the new
    promise 2, the first chunk fulfils it for good, a stream error would
    reject it.  On the same engine without [@defer] the public promise is
    promise 1, the stream's own. *)
Lemma constructor_promise_witness :
  wf_concast (mkConcast 1%positive [(0, StreamObserver 1)] 1)
  ∧ (∃ w, constructor env_deferred (mkOptions (Some 5)) = Some w
          ∧ promise (this w) = 2%positive
          ∧ (∀ after, promises (run after (engine_step (StreamNext 1%positive) w))
                      !! 2%positive = Some (Fulfilled 1%positive))
          ∧ promises (engine_step (StreamError E1) w) !! 2%positive
            = Some (Rejected E1))
  ∧ (∃ w, constructor env_plain (mkOptions None) = Some w
          ∧ promise (this w) = 1%positive).
Proof.
  assert (Hwf : wf_concast (mkConcast 1%positive [(0, StreamObserver 1)] 1)).
  { split; simpl; [by_evaluation | repeat constructor]. }
  split; [exact Hwf |]. split.
  - destruct (constructor_promise env_deferred (mkOptions (Some 5)) _ eq_refl Hwf)
      as (w & Hw & Hbranch).
    change (hasDirectives _ _) with true in Hbranch. cbv zeta in Hbranch.
    change (fresh (dom _)) with 2%positive in Hbranch.
    destruct Hbranch as (Hp & _ & _ & _ & Hnext & Herr).
    exists w. split_and!; [exact Hw | exact Hp | |].
    + intros after.
      by destruct (Hnext [] 1%positive (Forall_nil_2 _))
        as (_ & _ & _ & _ & Hlater).
    + exact (Herr [] E1 (Forall_nil_2 _)).
  - destruct (constructor_promise env_plain (mkOptions None) _ eq_refl Hwf)
      as (w & Hw & Hbranch).
    change (hasDirectives _ _) with false in Hbranch.
    destruct Hbranch as (Hp & _). by exists w.
Defined.

(** ** The invariant of a coordinator in use *)

Section Invariant.
Context `{Imports} `{Callbacks}.

Lemma engine_step_frame (ev : engine_event) (w : World) :
  listeners (this (engine_step ev w)) = listeners (this w)
  ∧ subscription (this (engine_step ev w)) = subscription (this w)
  ∧ observers (observable (engine_step ev w)) = observers (observable w).
Proof.
  destruct ev as [r | e | r | e]; simpl;
    apply (foldl_preserves
             (λ w', listeners (this w') = listeners (this w)
                    ∧ subscription (this w') = subscription (this w)
                    ∧ observers (observable w') = observers (observable w)));
    try done; intros w' [s o] _ (Hl & Hs & Ho); simpl.
  - destruct o; simpl; [| done].
    destruct (handleNext_frame r w') as (-> & -> & ->). done.
  - destruct o; simpl; [| done].
    destruct (handleError_frame e w') as (-> & -> & ->). done.
  - destruct o; simpl; [| done]. unfold update_concast.
    by destruct w' as [h ps [q cr obs nid [c |]] t tr].
  - by destruct o.
Qed.

(** The constructor delivers nothing and leaves a coordinator that
    satisfies the invariant, on an engine that did not know its handlers. *)
Lemma constructor_ok (env : Env) (options : Options) (w : World) :
  Forall (λ so, so.2 ≠ CoordinatorObserver ∧ so.1 < next_id (env_observable env))
    (observers (env_observable env)) →
  constructor env options = Some w →
  coordinator_ok w
  ∧ listeners (this w) = []
  ∧ result (this w) = currentResult (env_observable env)
  ∧ trace w = env_trace env.
Proof.
  intros Hfresh Hw.
  destruct (concast (observable_subscribe CoordinatorObserver
                       (env_promises env) (env_observable env)).2)
    as [c |] eqn:Hc.
  - rewrite (constructor_spec env options c Hc) in Hw.
    assert (Hobs : observers (observable w)
                   = observers (env_observable env)
                     ++ [(next_id (env_observable env), CoordinatorObserver)]
                   ∧ subscription (this w) = next_id (env_observable env)
                   ∧ listeners (this w) = []
                   ∧ result (this w) = currentResult (env_observable env)
                   ∧ trace w = env_trace env).
    { unfold observable_subscribe in Hw.
      destruct (hasDirectives _ _), (concast (env_observable env));
        simpl in Hw; simplify_eq; done. }
    destruct Hobs as (Hobs & Hsub & Hls & Hres & Htr).
    split_and!; try done. split.
    + rewrite Hls. apply NoDup_nil_2.
    + rewrite Hobs, Hsub. apply Forall_app. split; [| by repeat constructor].
      eapply Forall_impl; [exact Hfresh |]. intros [s o] [Hne _] Hco. done.
  - unfold observable_subscribe in Hc.
    destruct (concast (env_observable env)); [| destruct (new_promise _)];
      discriminate.
Qed.

Lemma run_operation_ok (w : World) (op : operation) :
  coordinator_ok w → coordinator_ok (run_operation w op).
Proof.
  intros [Hnd Honly]. destruct op as [l | [l] | v | v | | ev]; simpl.
  - split; [by apply NoDup_Set_add | done].
  - split; [by apply NoDup_filter | done].
  - by split.
  - by split.
  - rewrite dispose_spec. split; [done |]. simpl.
    unfold registry_unsubscribe. apply Forall_forall.
    intros so [_ Hin]%list_elem_of_filter. rewrite Forall_forall in Honly.
    by apply Honly.
  - destruct (engine_step_frame ev w) as (Hl & Hs & Ho).
    unfold coordinator_ok. by rewrite Hl, Hs, Ho.
Qed.

Lemma run_ok (ops : list operation) (w : World) :
  coordinator_ok w → coordinator_ok (run ops w).
Proof.
  revert w. induction ops as [| op ops IH]; intros w Hok; [done |].
  simpl. apply IH. by apply run_operation_ok.
Qed.

End Invariant.

(** ** Further properties of the handlers *)

Section Handlers.
Context `{Imports} `{Callbacks}.

Lemma is_undefined_spec (v : value) : is_undefined v = true ↔ v = VUndefined.
Proof. destruct v; simpl; split; (done || discriminate). Qed.

(** The condition of the first [if] fails on a snapshot that has [data]. *)
Lemma backfills_defined (r : loc) (w : World) :
  is_undefined (get "data" (deref (heap w) r)) = false → backfills r w = false.
Proof. unfold backfills. intros ->. apply andb_false_r. Qed.

Lemma get_insert (k : string) (v : value) (o : obj) :
  get k (<[k := v]> o) = v.
Proof. unfold get. by rewrite lookup_insert_eq. Qed.

Lemma get_insert_ne (k k' : string) (v : value) (o : obj) :
  k ≠ k' → get k' (<[k := v]> o) = get k' o.
Proof. intros Hne. unfold get. by rewrite lookup_insert_ne. Qed.

(** After the write of the first [if], the incoming snapshot has [data]. *)
Lemma normalised_defined (r : loc) (w : World) :
  backfills r w = true → is_undefined (get "data" (normalised r w)) = false.
Proof.
  intros Hb. unfold normalised. rewrite Hb, get_insert.
  unfold backfills in Hb. apply andb_prop in Hb as [Hb _].
  apply andb_prop in Hb as [_ Ht]. by apply truthy_defined.
Qed.

(** X1: with an [equal] that finds every snapshot equal to itself, handing
    the same object to [handleNext] a second time changes nothing: it is
    not stored again and no listener is called again. *)
Theorem handleNext_idempotent (r : loc) (w : World) :
  (∀ o, equal o o = true) →
  handleNext r (handleNext r w) = handleNext r w.
Proof.
  intros Hrefl. rewrite (handleNext_unfold r w). simpl.
  destruct (equal (deref (heap w) (result (this w))) (normalised r w)) eqn:Heq.
  - destruct (backfills r w) eqn:Hb;
      [| by rewrite handleNext_unfold; simpl; rewrite Hb, Heq].
    rewrite handleNext_unfold. simpl.
    assert (Hb' : backfills r (set_heap (<[r := normalised r w]> (heap w)) w) = false).
    { apply backfills_defined. simpl. rewrite deref_insert.
      by apply normalised_defined. }
    rewrite Hb'. unfold normalised at 2. rewrite Hb'. simpl.
    rewrite deref_insert, deref_insert_ne by (by apply backfills_other).
    by rewrite Heq.
  - rewrite deliver_spec, handleNext_unfold. simpl.
    set (w1 := if backfills r w then _ else w).
    set (w' := mkWorld _ _ _ _ _).
    assert (Hb' : backfills r w' = false).
    { unfold backfills. simpl.
      destruct (truthy (get "data" (deref (heap w1) r))) eqn:Ht.
      - apply truthy_defined in Ht. rewrite Ht. apply andb_false_r.
      - by rewrite andb_false_r. }
    rewrite Hb'. unfold normalised. rewrite Hb'. simpl. by rewrite Hrefl.
Qed.

(** X2: with such an [equal], handing [handleNext] the object that is the
    current result is a no-op, whatever that object holds. *)
Theorem handleNext_current_noop (w : World) :
  (∀ o, equal o o = true) →
  handleNext (result (this w)) w = w.
Proof.
  intros Hrefl. rewrite handleNext_unfold. simpl.
  assert (Hb : backfills (result (this w)) w = false).
  { destruct (backfills (result (this w)) w) eqn:Hb; [| done].
    by apply backfills_other in Hb. }
  unfold normalised. by rewrite Hb, Hrefl.
Qed.

(** X3: [handleNext] writes nothing but the [data] property of the object it
    is handed: the promises, the engine, the promise field, the
    subscription, the listener set and the dispose hook stay as they are;
    every other object, every other property of the incoming object and the
    contents of the snapshot that was current stay as they are; and no
    object is allocated beyond the incoming reference. *)
Theorem handleNext_writes_only_data (r : loc) (w : World) :
  let w' := handleNext r w in
  promises w' = promises w
  ∧ observable w' = observable w
  ∧ promise (this w') = promise (this w)
  ∧ subscription (this w') = subscription (this w)
  ∧ listeners (this w') = listeners (this w)
  ∧ onDispose (this w') = onDispose (this w)
  ∧ (∀ l, l ≠ r → heap w' !! l = heap w !! l)
  ∧ (∀ k, k ≠ "data" → deref (heap w') r !! k = deref (heap w) r !! k)
  ∧ deref (heap w') (result (this w)) = deref (heap w) (result (this w))
  ∧ dom (heap w') ⊆ dom (heap w) ∪ {[r]}.
Proof.
  intros w'. subst w'. rewrite handleNext_unfold. simpl.
  assert (Hheap : ∀ w1,
    w1 = (if backfills r w
          then set_heap (<[r := normalised r w]> (heap w)) w else w) →
    (∀ l, l ≠ r → heap w1 !! l = heap w !! l)
    ∧ (∀ k, k ≠ "data" → deref (heap w1) r !! k = deref (heap w) r !! k)
    ∧ deref (heap w1) (result (this w)) = deref (heap w) (result (this w))
    ∧ dom (heap w1) ⊆ dom (heap w) ∪ {[r]}).
  { intros w1 ->. destruct (backfills r w) eqn:Hb; simpl.
    - split_and!.
      + intros l Hl. by rewrite lookup_insert_ne.
      + intros k Hk. rewrite deref_insert. unfold normalised.
        by rewrite Hb, lookup_insert_ne.
      + apply deref_insert_ne. by apply backfills_other.
      + rewrite dom_insert_L. by rewrite (comm_L (∪)).
    - split_and!; try done. apply union_subseteq_l. }
  destruct (Hheap _ eq_refl) as (H1 & H2 & H3 & H4).
  destruct (equal _ _); [| rewrite deliver_spec]; simpl;
    (split_and!; [by destruct (backfills r w) .. | done | done | done | done]).
Qed.

(** X4: [handleNext] writes to the heap exactly when the incoming status
    is settled, the current snapshot has truthy [data] and the incoming
    [data] is [undefined].  In particular an incoming snapshot whose [data]
    is [null], or whose status is still in flight, is left as it came. *)
Theorem handleNext_writes_iff (r : loc) (w : World) :
  heap (handleNext r w) ≠ heap w
  ↔ isNetworkRequestSettled (get "networkStatus" (deref (heap w) r)) = true
    ∧ truthy (get "data" (deref (heap w) (result (this w)))) = true
    ∧ get "data" (deref (heap w) r) = VUndefined.
Proof.
  assert (Hheap : heap (handleNext r w)
                  = if backfills r w then <[r := normalised r w]> (heap w)
                    else heap w).
  { rewrite handleNext_unfold. simpl.
    destruct (equal _ _); [| rewrite deliver_spec]; by destruct (backfills r w). }
  assert (Hcond : backfills r w = true
                  ↔ isNetworkRequestSettled
                      (get "networkStatus" (deref (heap w) r)) = true
                    ∧ truthy (get "data" (deref (heap w) (result (this w))))
                      = true
                    ∧ get "data" (deref (heap w) r) = VUndefined).
  { unfold backfills. rewrite !andb_true_iff, is_undefined_spec. tauto. }
  rewrite Hheap, <- Hcond. destruct (backfills r w) eqn:Hb;
    [| split; [intros Hne; by destruct Hne | discriminate]].
  split; [done |]. intros _ Heq.
  pose proof (normalised_defined r w Hb) as Hdef.
  assert (Hr : deref (<[r := normalised r w]> (heap w)) r = deref (heap w) r)
    by (by rewrite Heq).
  rewrite deref_insert in Hr. rewrite Hr in Hdef.
  unfold backfills in Hb. apply andb_prop in Hb as [_ Hu]. congruence.
Qed.

(** X5: of two errors in a row the last one wins: the current snapshot is
    the snapshot held before the first error with [error] set to the second
    error; the two errors are stored as two different objects, and the
    first one stays in the heap as it was delivered. *)
Theorem handleError_last_error_wins (e1 e2 : value) (w : World) :
  let previous := deref (heap w) (result (this w)) in
  let w1 := handleError e1 w in
  let w2 := handleError e2 w1 in
  deref (heap w2) (result (this w2))
  = <["networkStatus" := NetworkStatus_error]> (<["error" := e2]> previous)
  ∧ result (this w2) ≠ result (this w1)
  ∧ deref (heap w2) (result (this w1))
    = <["networkStatus" := NetworkStatus_error]> (<["error" := e1]> previous).
Proof.
  intros previous w1 w2. subst w2 w1. unfold handleError.
  rewrite !deliver_spec. simpl. rewrite !deref_insert.
  set (r1 := fresh (dom (heap w))).
  set (o1 := <["networkStatus" := _]> (<["error" := e1]> _)).
  set (r2 := fresh (dom (<[r1 := o1]> (heap w)))).
  assert (Hne : r2 ≠ r1).
  { intros Heq. pose proof (is_fresh (dom (<[r1 := o1]> (heap w)))) as Hfresh.
    fold r2 in Hfresh. rewrite Heq, dom_insert_L in Hfresh.
    apply Hfresh, elem_of_union_l. by apply elem_of_singleton. }
  split_and!; [| done |].
  - subst o1. apply map_eq. intros k.
    destruct (decide (k = "networkStatus")) as [-> | Hk1];
      [by rewrite !lookup_insert_eq |].
    rewrite (lookup_insert_ne _ "networkStatus") by done.
    destruct (decide (k = "error")) as [-> | Hk2].
    + rewrite lookup_insert_eq. symmetry.
      rewrite lookup_insert_ne by done. apply lookup_insert_eq.
    + by rewrite !lookup_insert_ne.
  - rewrite deref_insert_ne by done. apply deref_insert.
Qed.


(** What [handleNext] adds to the trace. *)
Lemma trace_handleNext (r : loc) (w : World) :
  trace (handleNext r w)
  = trace w
    ++ if equal (deref (heap w) (result (this w))) (normalised r w)
       then []
       else fan_out r (called r (heap (handleNext r w)) (listeners (this w))).
Proof.
  rewrite handleNext_unfold. simpl.
  destruct (equal _ _); [rewrite app_nil_r | rewrite deliver_spec];
    by destruct (backfills r w).
Qed.



(** X7: data survives an error followed by a settled result without data:
    when the current snapshot has truthy [data], after [handleError] and
    then [handleNext] of a settled snapshot whose [data] is [undefined], the
    incoming object and the current result both carry that [data]. *)
Theorem data_survives_error_then_settled (e : value) (r : loc) (o : obj)
    (w : World) :
  heap w !! r = Some o →
  truthy (get "data" (deref (heap w) (result (this w)))) = true →
  isNetworkRequestSettled (get "networkStatus" o) = true →
  get "data" o = VUndefined →
  let data := get "data" (deref (heap w) (result (this w))) in
  let w2 := handleNext r (handleError e w) in
  get "data" (deref (heap w2) r) = data
  ∧ get "data" (deref (heap w2) (result (this w2))) = data.
Proof.
  intros Hr Ht Hs Hu data w2. subst w2.
  set (w1 := handleError e w).
  assert (Hne : fresh (dom (heap w)) ≠ r).
  { intros Heq. apply (is_fresh (dom (heap w))). rewrite Heq.
    by apply elem_of_dom_2 in Hr. }
  assert (Hcur : get "data" (deref (heap w1) (result (this w1))) = data).
  { subst w1. unfold handleError. rewrite deliver_spec. simpl.
    rewrite deref_insert. by rewrite !get_insert_ne. }
  assert (Hin : deref (heap w1) r = o).
  { subst w1. unfold handleError. rewrite deliver_spec. simpl.
    rewrite deref_insert_ne by done. unfold deref. by rewrite Hr. }
  assert (Hb : backfills r w1 = true).
  { unfold backfills. rewrite Hin, Hcur, Hs, Hu. unfold data. by rewrite Ht. }
  assert (Hn : get "data" (normalised r w1) = data).
  { unfold normalised. by rewrite Hb, get_insert. }
  rewrite handleNext_unfold. simpl. rewrite Hb.
  destruct (equal _ _); [| rewrite deliver_spec]; simpl.
  - rewrite deref_insert, deref_insert_ne by (by apply backfills_other).
    by split.
  - rewrite deref_insert. by split.
Qed.


End Handlers.

(** ** Further properties of the public methods *)

Section Methods.
Context `{Imports} `{Callbacks}.

(** X9: registering a callback that is already registered changes
    nothing, and the function returned by the first registration still
    removes the callback: there is one registration per callback, not one
    per call of [listen]. *)
Theorem listen_twice_registers_once (cb : Listener) (w : World) :
  let u1 := (listen cb w).1 in
  let w1 := (listen cb w).2 in
  let w2 := (listen cb w1).2 in
  w2 = w1 ∧ cb ∉ listeners (this (unregister u1 w2)).
Proof.
  simpl. split.
  - unfold set_listeners, set_this. simpl. do 2 f_equal.
    unfold Set_add at 1. rewrite decide_True; [done |].
    apply elem_of_Set_add. by left.
  - rewrite elem_of_Set_delete. tauto.
Qed.

(** X10: registering a callback that was not registered and calling the
    function returned gives back the world as it was. *)
Theorem listen_unregister_round_trip (cb : Listener) (w : World) :
  cb ∉ listeners (this w) →
  unregister (listen cb w).1 (listen cb w).2 = w.
Proof.
  intros Hcb. simpl. unfold set_listeners, set_this. simpl.
  assert (Hls : Set_delete cb (Set_add cb (listeners (this w)))
                = listeners (this w)).
  { unfold Set_add. rewrite decide_False by done. unfold Set_delete.
    rewrite filter_app, filter_cons_False, filter_nil, app_nil_r by tauto.
    by apply Set_delete_absent. }
  rewrite Hls. by destruct w as [h ps oq [] tr].
Qed.

(** X11: the public methods deliver nothing: through any sequence of
    [listen], unregistration, [refetch], [fetchMore] and [dispose] calls no
    listener is called, the current result stays and the heap is not
    written. *)
Theorem methods_never_deliver (ops : list operation) (w : World) :
  Forall (λ op, is_engine_operation op = false) ops →
  listener_calls (trace (run ops w)) = listener_calls (trace w)
  ∧ result (this (run ops w)) = result (this w)
  ∧ heap (run ops w) = heap w.
Proof.
  intros Hops. revert w. induction Hops as [| op ops Hop _ IH]; intros w; [done |].
  simpl. destruct (IH (run_operation w op)) as (-> & -> & ->).
  destruct op as [l | [l] | v | v | | ev]; simpl; try done.
  - split_and!; [| done | done]. rewrite listener_calls_app. apply app_nil_r.
  - split_and!; [| done | done]. rewrite listener_calls_app. apply app_nil_r.
  - rewrite dispose_spec. simpl. split_and!; [| done | done].
    rewrite listener_calls_app. destruct (onDispose (this w)); simpl;
      by rewrite app_nil_r.
Qed.

End Methods.

(** ** Further properties of construction and disposal *)

Section Lifetime.
Context `{Imports} `{Callbacks}.

Lemma registry_unsubscribe_absent {O : Type} (s : subid) (reg : list (subid * O)) :
  Forall (λ so, so.1 < s) reg → registry_unsubscribe s reg = reg.
Proof.
  unfold registry_unsubscribe. induction 1 as [| so reg Hso _ IH]; [done |].
  rewrite filter_cons_True by lia. by rewrite IH.
Qed.

(** What the constructor leaves in the engine and in the coordinator. *)
Lemma constructor_fields (env : Env) (options : Options) (w : World) :
  constructor env options = Some w →
  observers (observable w)
  = observers (env_observable env)
    ++ [(next_id (env_observable env), CoordinatorObserver)]
  ∧ subscription (this w) = next_id (env_observable env)
  ∧ onDispose (this w) = options_onDispose options
  ∧ trace w = env_trace env.
Proof.
  intros Hw.
  destruct (concast (observable_subscribe CoordinatorObserver
                       (env_promises env) (env_observable env)).2)
    as [c |] eqn:Hc.
  - rewrite (constructor_spec env options c Hc) in Hw.
    unfold observable_subscribe in Hw.
    destruct (hasDirectives _ _), (concast (env_observable env));
      simpl in Hw; by simplify_eq.
  - unfold observable_subscribe in Hc.
    destruct (concast (env_observable env)); [| destruct (new_promise _)];
      discriminate.
Qed.

(** X12: from its construction on, through any sequence of method calls
    and engine events, the coordinator keeps its invariant: no callback
    occurs twice in the listener set, and the engine knows the handlers
    under the handle kept in [subscription] only. *)
Theorem coordinator_ok_history (env : Env) (options : Options)
    (ops : list operation) (w : World) :
  Forall (λ so, so.2 ≠ CoordinatorObserver ∧ so.1 < next_id (env_observable env))
    (observers (env_observable env)) →
  constructor env options = Some w →
  coordinator_ok (run ops w).
Proof.
  intros Henv Hw. apply run_ok. by apply (constructor_ok env options w Henv Hw).
Qed.

(** X13: constructing a coordinator and disposing of it gives the engine
    its observers back as they were, calls the hook given in the options
    once (none if there was none) and calls no listener. *)
Theorem construct_dispose_round_trip (env : Env) (options : Options)
    (w : World) :
  Forall (λ so, so.1 < next_id (env_observable env))
    (observers (env_observable env)) →
  constructor env options = Some w →
  observers (observable (dispose w)) = observers (env_observable env)
  ∧ hook_calls (trace (dispose w))
    = hook_calls (env_trace env)
      ++ match options_onDispose options with Some h => [h] | None => [] end
  ∧ listener_calls (trace (dispose w)) = listener_calls (env_trace env).
Proof.
  intros Hids Hw.
  destruct (constructor_fields env options w Hw) as (Hobs & Hsub & Hhook & Htr).
  rewrite dispose_spec. simpl. rewrite Hobs, Hsub, Hhook, Htr. split_and!.
  - unfold registry_unsubscribe at 1. rewrite filter_app.
    fold (registry_unsubscribe (next_id (env_observable env))
            (observers (env_observable env))).
    rewrite registry_unsubscribe_absent by done.
    rewrite filter_cons_False, filter_nil, app_nil_r; [done | simpl; tauto].
  - rewrite hook_calls_app. by destruct (options_onDispose options).
  - rewrite listener_calls_app.
    destruct (options_onDispose options); simpl; by rewrite app_nil_r.
Qed.

(** X14: [dispose] releases the engine subscription only: the one-shot
    observer of a deferred query stays subscribed to the delivery stream,
    and the first chunk after [dispose] still fulfils the public promise. *)
Theorem dispose_keeps_first_chunk_observer (p : pid) (s : subid)
    (others : list (subid * stream_observer)) (r : loc) (w : World) :
  NoDup others.*1 →
  Forall (λ so, so.1 < s) others →
  promises w !! p = Some Pending →
  stream_observers_of w = others ++ [(s, FirstChunkObserver p)] →
  stream_observers_of (dispose w) = stream_observers_of w
  ∧ promise (this (dispose w)) = promise (this w)
  ∧ promises (engine_step (StreamNext r) (dispose w)) !! p = Some (Fulfilled r).
Proof.
  intros Hnd Hlt Hp Hobs.
  assert (Hsame : stream_observers_of (dispose w) = stream_observers_of w)
    by (by rewrite dispose_spec).
  split_and!; [done | by rewrite dispose_spec |].
  apply (first_chunk_resolves p s others r (dispose w) Hnd Hlt).
  - by rewrite dispose_spec.
  - by rewrite Hsame.
Qed.

Lemma foreign_observers_next (l : list (subid * query_observer)) (r : loc)
    (w : World) :
  Forall (λ so, so.2 ≠ CoordinatorObserver) l →
  let w' := foldl (λ w so, query_observer_next so.2 r w) w l in
  heap w' = heap w ∧ this w' = this w
  ∧ listener_calls (trace w') = listener_calls (trace w).
Proof.
  intros Hl. rewrite Forall_forall in Hl. simpl.
  apply (foldl_preserves
           (λ w', heap w' = heap w ∧ this w' = this w
                  ∧ listener_calls (trace w') = listener_calls (trace w)));
    [| done].
  intros w' [s o] Hin (Hh & Ht & Hc). specialize (Hl _ Hin). simpl in *.
  destruct o as [| n]; [done |]. simpl. split_and!; try done.
  rewrite listener_calls_app, Hc. apply app_nil_r.
Qed.

Lemma foreign_observers_error (l : list (subid * query_observer)) (e : value)
    (w : World) :
  Forall (λ so, so.2 ≠ CoordinatorObserver) l →
  let w' := foldl (λ w so, query_observer_error so.2 e w) w l in
  heap w' = heap w ∧ this w' = this w
  ∧ listener_calls (trace w') = listener_calls (trace w).
Proof.
  intros Hl. rewrite Forall_forall in Hl. simpl.
  apply (foldl_preserves
           (λ w', heap w' = heap w ∧ this w' = this w
                  ∧ listener_calls (trace w') = listener_calls (trace w)));
    [| done].
  intros w' [s o] Hin (Hh & Ht & Hc). specialize (Hl _ Hin). simpl in *.
  destruct o as [| n]; [done |]. simpl. split_and!; try done.
  rewrite listener_calls_app, Hc. apply app_nil_r.
Qed.

(** The handlers look at the heap and at the coordinator's fields only. *)
Lemma handleNext_congr (r : loc) (w1 w2 : World) :
  heap w1 = heap w2 → this w1 = this w2 →
  listener_calls (trace w1) = listener_calls (trace w2) →
  heap (handleNext r w1) = heap (handleNext r w2)
  ∧ this (handleNext r w1) = this (handleNext r w2)
  ∧ listener_calls (trace (handleNext r w1))
    = listener_calls (trace (handleNext r w2)).
Proof.
  destruct w1 as [h1 ps1 oq1 t1 tr1], w2 as [h2 ps2 oq2 t2 tr2]. simpl.
  intros -> -> Htr. rewrite !handleNext_unfold. unfold normalised, backfills.
  simpl. destruct (_ && _ && _); simpl; destruct (equal _ _);
    rewrite ?deliver_spec; simpl; rewrite ?listener_calls_app, ?Htr; done.
Qed.

Lemma handleError_congr (e : value) (w1 w2 : World) :
  heap w1 = heap w2 → this w1 = this w2 →
  listener_calls (trace w1) = listener_calls (trace w2) →
  heap (handleError e w1) = heap (handleError e w2)
  ∧ this (handleError e w1) = this (handleError e w2)
  ∧ listener_calls (trace (handleError e w1))
    = listener_calls (trace (handleError e w2)).
Proof.
  destruct w1 as [h1 ps1 oq1 t1 tr1], w2 as [h2 ps2 oq2 t2 tr2]. simpl.
  intros -> -> Htr. unfold handleError. rewrite !deliver_spec. simpl.
  by rewrite !listener_calls_app, Htr.
Qed.

(** X15: while the coordinator's observer is registered, once, among the
    observers of other consumers, a result the engine emits is handled
    exactly as one call of [handleNext], and an error as one call of
    [handleError]: same heap, same fields, same listener calls. *)
Theorem emission_handled_once (r : loc) (e : value) (s : subid)
    (before after : list (subid * query_observer)) (w : World) :
  observers (observable w) = before ++ (s, CoordinatorObserver) :: after →
  Forall (λ so, so.2 ≠ CoordinatorObserver) (before ++ after) →
  (let w' := engine_step (EmitNext r) w in
   heap w' = heap (handleNext r w)
   ∧ this w' = this (handleNext r w)
   ∧ listener_calls (trace w') = listener_calls (trace (handleNext r w)))
  ∧ (let w' := engine_step (EmitError e) w in
     heap w' = heap (handleError e w)
     ∧ this w' = this (handleError e w)
     ∧ listener_calls (trace w') = listener_calls (trace (handleError e w))).
Proof.
  intros Hobs [Hbefore Hafter]%Forall_app. unfold engine_step.
  rewrite Hobs, !foldl_app. simpl. split.
  - destruct (foreign_observers_next before r w Hbefore) as (Hh & Ht & Hc).
    set (wa := foldl _ w before) in *.
    destruct (foreign_observers_next after r (handleNext r wa) Hafter)
      as (-> & -> & ->).
    by apply handleNext_congr.
  - destruct (foreign_observers_error before e w Hbefore) as (Hh & Ht & Hc).
    set (wa := foldl _ w before) in *.
    destruct (foreign_observers_error after e (handleError e wa) Hafter)
      as (-> & -> & ->).
    by apply handleError_congr.
Qed.

(** X16: with no listener registered, an error and a result that is not
    equal to the current one are still recorded as the current result, and
    nothing is called. *)
Theorem recorded_without_listeners (r : loc) (e : value) (w : World) :
  listeners (this w) = [] →
  (trace (handleError e w) = trace w
   ∧ result (this (handleError e w)) = fresh (dom (heap w)))
  ∧ (equal (deref (heap w) (result (this w))) (normalised r w) = false →
     trace (handleNext r w) = trace w
     ∧ result (this (handleNext r w)) = r).
Proof.
  intros Hls. split.
  - unfold handleError. rewrite deliver_spec. simpl. rewrite Hls.
    split; [apply app_nil_r | done].
  - intros Hne. rewrite trace_handleNext, handleNext_unfold, Hne, Hls. simpl.
    split; [apply app_nil_r |]. rewrite deliver_spec. by destruct (backfills r w).
Qed.

End Lifetime.

(** ** The further properties on the scenarios *)

(** Snapshot 2 handed over twice: the second time nothing happens. *)
Lemma handleNext_idempotent_witness :
  (∀ o, structural_equal o o = true)
  ∧ handleNext 2%positive (handleNext 2%positive scenario)
    = handleNext 2%positive scenario.
Proof.
  split; [exact structural_equal_refl |].
  apply (handleNext_idempotent 2%positive scenario). exact structural_equal_refl.
Defined.

(** The current snapshot 1 handed over again. *)
Lemma handleNext_current_noop_witness :
  (∀ o, structural_equal o o = true)
  ∧ handleNext (result (this scenario)) scenario = scenario.
Proof.
  split; [exact structural_equal_refl |].
  apply (handleNext_current_noop scenario). exact structural_equal_refl.
Defined.


(** On the scenario: error [E1], then the settled snapshot 2 without data. *)
Lemma data_survives_error_then_settled_witness :
  heap scenario !! 2%positive = Some snapshot_error
  ∧ truthy (get "data" (deref (heap scenario) (result (this scenario)))) = true
  ∧ isNetworkRequestSettled (get "networkStatus" snapshot_error) = true
  ∧ get "data" snapshot_error = VUndefined
  ∧ get "data" (deref (heap (handleNext 2%positive (handleError E1 scenario)))
                  2%positive) = D.
Proof.
  assert (Hr : heap scenario !! 2%positive = Some snapshot_error)
    by (vm_compute; reflexivity).
  assert (Ht : truthy (get "data" (deref (heap scenario)
                                     (result (this scenario)))) = true)
    by (vm_compute; reflexivity).
  assert (Hs : isNetworkRequestSettled (get "networkStatus" snapshot_error)
               = true) by (vm_compute; reflexivity).
  assert (Hu : get "data" snapshot_error = VUndefined)
    by (vm_compute; reflexivity).
  split_and!; [exact Hr | exact Ht | exact Hs | exact Hu |].
  by destruct (data_survives_error_then_settled E1 2%positive snapshot_error
                 scenario Hr Ht Hs Hu) as [Hdata _].
Defined.


Lemma listen_unregister_round_trip_witness :
  (8 ∉ listeners (this scenario))
  ∧ unregister (listen 8 scenario).1 (listen 8 scenario).2 = scenario.
Proof.
  assert (Hout : 8 ∉ listeners (this scenario)) by by_evaluation.
  split; [exact Hout |]. exact (listen_unregister_round_trip 8 scenario Hout).
Defined.

Lemma methods_never_deliver_witness :
  Forall (λ op, is_engine_operation op = false)
    [Listen 8; Refetch VUndefined; CallUnregister (UnregisterListener 7);
     FetchMore D; Dispose]
  ∧ listener_calls
      (trace (run [Listen 8; Refetch VUndefined;
                   CallUnregister (UnregisterListener 7); FetchMore D; Dispose]
                scenario)) = []
  ∧ result (this (run [Listen 8; Refetch VUndefined;
                       CallUnregister (UnregisterListener 7); FetchMore D;
                       Dispose] scenario)) = 1%positive.
Proof.
  assert (Hops : Forall (λ op, is_engine_operation op = false)
                   [Listen 8; Refetch VUndefined;
                    CallUnregister (UnregisterListener 7); FetchMore D;
                    Dispose]) by (repeat constructor).
  split; [exact Hops |].
  destruct (methods_never_deliver _ scenario Hops) as (Hcalls & Hres & _).
  split; [exact Hcalls | exact Hres].
Defined.

(** The coordinator constructed on [env_plain], through a history with a
    double registration, a delivery and a disposal. *)
Lemma coordinator_ok_history_witness :
  Forall (λ so, so.2 ≠ CoordinatorObserver ∧ so.1 < next_id (env_observable env_plain))
    (observers (env_observable env_plain))
  ∧ ∃ w, constructor env_plain (mkOptions (Some 5)) = Some w
         ∧ coordinator_ok
             (run [Listen 7; Listen 7; Engine (EmitNext 2%positive); Dispose;
                   Engine (EmitError E1)] w).
Proof.
  assert (Henv : Forall (λ so, so.2 ≠ CoordinatorObserver
                               ∧ so.1 < next_id (env_observable env_plain))
                   (observers (env_observable env_plain))) by by_evaluation.
  split; [exact Henv |].
  exists (default scenario (constructor env_plain (mkOptions (Some 5)))).
  assert (Hw : constructor env_plain (mkOptions (Some 5))
               = Some (default scenario
                         (constructor env_plain (mkOptions (Some 5)))))
    by (vm_compute; reflexivity).
  split; [exact Hw |].
  exact (coordinator_ok_history env_plain (mkOptions (Some 5)) _ _ Henv Hw).
Defined.

Lemma construct_dispose_round_trip_witness :
  Forall (λ so, so.1 < next_id (env_observable env_plain))
    (observers (env_observable env_plain))
  ∧ ∃ w, constructor env_plain (mkOptions (Some 5)) = Some w
         ∧ observers (observable (dispose w)) = [(0, ForeignObserver 0)]
         ∧ hook_calls (trace (dispose w)) = [5].
Proof.
  assert (Henv : Forall (λ so, so.1 < next_id (env_observable env_plain))
                   (observers (env_observable env_plain))) by by_evaluation.
  split; [exact Henv |].
  exists (default scenario (constructor env_plain (mkOptions (Some 5)))).
  assert (Hw : constructor env_plain (mkOptions (Some 5))
               = Some (default scenario
                         (constructor env_plain (mkOptions (Some 5)))))
    by (vm_compute; reflexivity).
  split; [exact Hw |].
  destruct (construct_dispose_round_trip env_plain (mkOptions (Some 5)) _
              Henv Hw) as (Hobs & Hhook & _).
  split; [exact Hobs | exact Hhook].
Defined.

(** The deferred coordinator disposed of before the first chunk. *)
Lemma dispose_keeps_first_chunk_observer_witness :
  NoDup [(0, StreamObserver 1)].*1
  ∧ Forall (λ so : subid * stream_observer, so.1 < 1) [(0, StreamObserver 1)]
  ∧ promises scenario_deferred !! 2%positive = Some Pending
  ∧ stream_observers_of scenario_deferred
    = [(0, StreamObserver 1)] ++ [(1, FirstChunkObserver 2%positive)]
  ∧ promises (engine_step (StreamNext 2%positive) (dispose scenario_deferred))
    !! 2%positive = Some (Fulfilled 2%positive).
Proof.
  assert (Hnd : NoDup [(0, StreamObserver 1)].*1) by by_evaluation.
  assert (Hlt : Forall (λ so : subid * stream_observer, so.1 < 1)
                  [(0, StreamObserver 1)]) by by_evaluation.
  assert (Hp : promises scenario_deferred !! 2%positive = Some Pending)
    by (vm_compute; reflexivity).
  assert (Hobs : stream_observers_of scenario_deferred
                 = [(0, StreamObserver 1)] ++ [(1, FirstChunkObserver 2%positive)])
    by reflexivity.
  split_and!; [exact Hnd | exact Hlt | exact Hp | exact Hobs |].
  by destruct (dispose_keeps_first_chunk_observer 2%positive 1
                 [(0, StreamObserver 1)] 2%positive scenario_deferred
                 Hnd Hlt Hp Hobs) as (_ & _ & Hful).
Defined.

(** On the scenario the coordinator's observer comes first, before the
    observer of another consumer. *)
Lemma emission_handled_once_witness :
  observers (observable scenario)
  = [] ++ (0, CoordinatorObserver) :: [(1, ForeignObserver 0)]
  ∧ Forall (λ so : subid * query_observer, so.2 ≠ CoordinatorObserver)
      ([] ++ [(1, ForeignObserver 0)])
  ∧ listener_calls (trace (engine_step (EmitNext 2%positive) scenario))
    = listener_calls (trace (handleNext 2%positive scenario)).
Proof.
  assert (Hobs : observers (observable scenario)
                 = [] ++ (0, CoordinatorObserver) :: [(1, ForeignObserver 0)])
    by reflexivity.
  assert (Hfor : Forall (λ so : subid * query_observer,
                           so.2 ≠ CoordinatorObserver)
                   ([] ++ [(1, ForeignObserver 0)])) by by_evaluation.
  split; [exact Hobs |]. split; [exact Hfor |].
  by destruct (emission_handled_once 2%positive E1 0 [] [(1, ForeignObserver 0)]
                 scenario Hobs Hfor) as [(_ & _ & Hcalls) _].
Defined.

(** The scenario with its listeners removed. *)
Lemma recorded_without_listeners_witness :
  listeners (this (set_listeners [] scenario)) = []
  ∧ trace (handleNext 2%positive (set_listeners [] scenario)) = []
  ∧ result (this (handleNext 2%positive (set_listeners [] scenario)))
    = 2%positive.
Proof.
  split; [reflexivity |].
  destruct (recorded_without_listeners 2%positive E1 (set_listeners [] scenario)
              eq_refl) as [_ Hnext].
  apply Hnext. vm_compute. reflexivity.
Defined.
